(** * MusicBot: the playback session engine of [bot.py]

    A shallow embedding of [VoiceState] (the per-guild playback session and
    its background [audio_player_task]) and of the [Music] cog (the registry
    [voice_states] and the commands that act on a session), followed by the
    properties of the specification that concern them.

    Python objects are modelled as records, [None] as [option], the
    dictionary [voice_states] as a [gmap] from guild ids to session
    references, exceptions as a result type, and the side effects that
    leave the process (messages, reactions, calls on the voice client) as
    an output log. *)

From Stdlib Require Import ZArith QArith.
From stdpp Require Import base option list gmap sets strings pretty.

Local Open Scope string_scope.
Local Open Scope list_scope.
Local Open Scope Z_scope.

(** ** Tracks *)

(** Modelled from the spec: [media.Song] (imported by [bot.py], defined in
    [media.py]) is the Track of the data model: title, source reference,
    duration and requester identity, immutable once constructed. *)
Record Song := mkSong {
  title : string;
  url : string;
  duration : Z;
  requester : Z
}.

#[global] Instance Song_eq_dec : EqDecision Song.
Proof. solve_decision. Defined.

(** ** Exceptions and effects *)

Inductive Exn :=
| AttributeError                 (* attribute access on [None] *)
| VoiceError (msg : string)      (* class VoiceError(Exception) *)
| ClientException (msg : string) (* raised by the voice client's [play] *)
| CommandError (msg : string)    (* commands.CommandError *)
| IndexError.                    (* the spec's OutOfRange *)

Definition str (e : Exn) : string :=
  match e with
  | AttributeError => "AttributeError"
  | VoiceError m => m
  | ClientException m => m
  | CommandError m => m
  | IndexError => "IndexError"
  end.

(** Calls issued on the voice client (the AudioSink of the spec). *)
Inductive SinkCall :=
| SPlay (s : Song) (vol : Q)   (* voice.play(source, after=play_next_song) *)
| SStop                        (* voice.stop() *)
| SPause                       (* voice.pause() *)
| SResume                      (* voice.resume() *)
| SDisconnect                  (* voice.disconnect() *)
| SMoveTo (channel : Z)        (* voice.move_to(destination) *)
| SConnect (channel : Z).      (* destination.connect() *)

Inductive Emoji := PlayPause | StopButton | NextTrack | CheckMark.

Inductive Effect :=
| Send (msg : string)          (* ctx.send(msg) *)
| SendEmbed (s : Song)         (* channel.send(embed=song.create_embed()) *)
| AddReaction (e : Emoji)      (* ctx.message.add_reaction(e) *)
| Stdout (msg : string)        (* print(msg) *)
| Sink (c : SinkCall)
| CreateTaskStop.              (* bot.loop.create_task(self.stop()) *)

Definition is_sink (e : Effect) : bool :=
  match e with Sink _ => true | _ => false end.

Definition is_create_task_stop (e : Effect) : bool :=
  match e with CreateTaskStop => true | _ => false end.

(** The calls on the voice client found in an output log. *)
Definition sink_calls (out : list Effect) : list Effect := filter is_sink out.

(** How many times teardown was initiated in an output log. *)
Definition stops_initiated (out : list Effect) : nat :=
  length (filter is_create_task_stop out).

(** ** A state, output and exception monad

    A computation over a state [S] returns a value or raises, together with
    the state it leaves behind (mutations made before a [raise] persist, as
    in Python) and the effects it emitted. *)

Inductive result (A : Type) :=
| Returned (a : A)
| Raised (e : Exn).
Arguments Returned {A} a.
Arguments Raised {A} e.

Definition M (S A : Type) : Type := S → result A * S * list Effect.

#[global] Instance M_ret {S} : MRet (M S) :=
  λ A a s, (Returned a, s, []).

#[global] Instance M_bind {S} : MBind (M S) :=
  λ A B k m s,
    match m s with
    | (Returned a, s1, o1) =>
        match k a s1 with (r, s2, o2) => (r, s2, o1 ++ o2) end
    | (Raised e, s1, o1) => (Raised e, s1, o1)
    end.

(** [x <- m; k] runs [m] and names its value for [k]. *)
Definition bind {S A B} (m : M S A) (k : A → M S B) : M S B := mbind k m.

Notation "x <- m ; k" := (bind m (λ x, k))
  (at level 20, m at level 100, k at level 200, only parsing).

Definition raise {S A} (e : Exn) : M S A := λ s, (Raised e, s, []).

(** [try: m except Exception as e: h e] *)
Definition try_except {S A} (m : M S A) (h : Exn → M S A) : M S A :=
  λ s,
    match m s with
    | (Returned a, s1, o1) => (Returned a, s1, o1)
    | (Raised e, s1, o1) =>
        match h e s1 with (r, s2, o2) => (r, s2, o1 ++ o2) end
    end.

Definition gets {S A} (f : S → A) : M S A := λ s, (Returned (f s), s, []).
Definition modify {S} (f : S → S) : M S unit := λ s, (Returned tt, f s, []).
Definition emit {S} (e : Effect) : M S unit := λ s, (Returned tt, s, [e]).

Definition state_of {S A} (r : result A * S * list Effect) : S := r.1.2.
Definition value_of {S A} (r : result A * S * list Effect) : result A := r.1.1.
Definition output_of {S A} (r : result A * S * list Effect) : list Effect := r.2.

(** ** The song queue *)

Module SongQueue.

(** Modelled from the spec: [media.SongQueue] (an asyncio queue of songs,
    defined in [media.py]) is the Queue of section 4.1: an ordered
    sequence of Tracks, head first. *)
Abbreviation t := (list Song).

(** Modelled from the spec: [clear()] discards all pending Tracks. *)
Definition clear (q : t) : t := [].

(** Modelled from the spec: [enqueue(track)] appends to the end and never
    fails ([songs.put]). *)
Definition put (s : Song) (q : t) : t := q ++ [s].

(** Modelled from the spec: [length()]. *)
Definition len (q : t) : Z := Z.of_nat (length q).

(** Modelled from the spec: [removeAt(index)] removes and discards the
    Track at 0-based position [index] in current order; it fails with
    OutOfRange if [index] is outside [[0, length)]. *)
Definition remove (index : Z) (q : t) : result t :=
  if bool_decide (0 ≤ index < len q)
  then Returned (delete (Z.to_nat index) q)
  else Raised IndexError.


End SongQueue.

(** ** The voice client

    [discord.VoiceClient] is a collaborator outside the repository.  The
    model keeps what [bot.py] observes of it: the channel it is connected
    to and whether its player is rendering, paused or absent. *)

Inductive PlayerStatus := NoPlayer | Rendering | Paused.

#[global] Instance PlayerStatus_eq_dec : EqDecision PlayerStatus.
Proof. solve_decision. Defined.

Record VoiceClient := mkVoiceClient {
  channel : Z;
  player : PlayerStatus
}.

Definition set_player (p : PlayerStatus) (vc : VoiceClient) : VoiceClient :=
  {| channel := channel vc; player := p |}.

(** ** The playback session *)

Module VoiceState.

(** Where the coroutine [audio_player_task] stands.  Between two of its
    [await]s the coroutine runs without interleaving (asyncio is
    cooperative), so its program points are the top of the [while True]
    body and the two suspensions that wait for the rest of the bot:
    [await self.songs.get()] under [timeout(180)], with the whole seconds
    spent waiting so far, and [await self.next.wait()].  [Cancelled] is the
    task after [audio_player.cancel()]. *)
Inductive Task :=
| AtTop
| InGet (waited : nat)
| InNextWait
| Cancelled.

#[global] Instance Task_eq_dec : EqDecision Task.
Proof. solve_decision. Defined.

(** The attributes set by [VoiceState.__init__]; [_ctx] keeps the guild id
    of the context the session was created for, [next] is the flag of the
    [asyncio.Event]. *)
Record t := mk {
  _ctx : Z;
  current : option Song;
  voice : option VoiceClient;
  next : bool;
  songs : SongQueue.t;
  _loop : bool;
  _volume : Q;
  skip_votes : gset Z;
  audio_player : Task
}.

(** [VoiceState(bot, ctx)]: the constructor also creates the background
    task, which has not run yet. *)
Definition __init__ (ctx : Z) : t :=
  {| _ctx := ctx; current := None; voice := None; next := false;
     songs := []; _loop := false; _volume := 0.5%Q; skip_votes := ∅;
     audio_player := AtTop |}.

Definition set_current (c : option Song) (s : t) : t :=
  {| _ctx := _ctx s; current := c; voice := voice s; next := next s;
     songs := songs s; _loop := _loop s; _volume := _volume s;
     skip_votes := skip_votes s; audio_player := audio_player s |}.

Definition set_voice (v : option VoiceClient) (s : t) : t :=
  {| _ctx := _ctx s; current := current s; voice := v; next := next s;
     songs := songs s; _loop := _loop s; _volume := _volume s;
     skip_votes := skip_votes s; audio_player := audio_player s |}.

Definition set_next (b : bool) (s : t) : t :=
  {| _ctx := _ctx s; current := current s; voice := voice s; next := b;
     songs := songs s; _loop := _loop s; _volume := _volume s;
     skip_votes := skip_votes s; audio_player := audio_player s |}.

Definition set_songs (q : SongQueue.t) (s : t) : t :=
  {| _ctx := _ctx s; current := current s; voice := voice s; next := next s;
     songs := q; _loop := _loop s; _volume := _volume s;
     skip_votes := skip_votes s; audio_player := audio_player s |}.

(** The setter of the property [loop]. *)
Definition set_loop (value : bool) (s : t) : t :=
  {| _ctx := _ctx s; current := current s; voice := voice s; next := next s;
     songs := songs s; _loop := value; _volume := _volume s;
     skip_votes := skip_votes s; audio_player := audio_player s |}.

(** The setter of the property [volume]. *)
Definition set_volume (value : Q) (s : t) : t :=
  {| _ctx := _ctx s; current := current s; voice := voice s; next := next s;
     songs := songs s; _loop := _loop s; _volume := value;
     skip_votes := skip_votes s; audio_player := audio_player s |}.

Definition set_skip_votes (v : gset Z) (s : t) : t :=
  {| _ctx := _ctx s; current := current s; voice := voice s; next := next s;
     songs := songs s; _loop := _loop s; _volume := _volume s;
     skip_votes := v; audio_player := audio_player s |}.

Definition set_audio_player (p : Task) (s : t) : t :=
  {| _ctx := _ctx s; current := current s; voice := voice s; next := next s;
     songs := songs s; _loop := _loop s; _volume := _volume s;
     skip_votes := skip_votes s; audio_player := p |}.

(** The getters of the properties [loop] and [volume]. *)
Definition loop (s : t) : bool := _loop s.
Definition volume (s : t) : Q := _volume s.

(** [return self.voice and self.current], read for its truth value: a voice
    client and a song are true, [None] is false. *)
Definition is_playing (s : t) : bool :=
  match voice s, current s with
  | Some _, Some _ => true
  | _, _ => false
  end.

(** *** Calls on [self.voice] *)

(** Evaluating [self.voice.<attr>] raises when [self.voice] is [None]. *)
Definition the_voice : M t VoiceClient :=
  λ s, match voice s with
       | Some vc => (Returned vc, s, [])
       | None => (Raised AttributeError, s, [])
       end.

(** [self.voice.is_playing()] and [self.voice.is_paused()]. *)
Definition voice_is_playing : M t bool :=
  vc <- the_voice; mret (bool_decide (player vc = Rendering)).

Definition voice_is_paused : M t bool :=
  vc <- the_voice; mret (bool_decide (player vc = Paused)).

(** [self.voice.stop()]: the client drops its player. *)
Definition voice_stop : M t unit :=
  vc <- the_voice;
  emit (Sink SStop);;
  modify (set_voice (Some (set_player NoPlayer vc))).

(** [self.voice.pause()] and [self.voice.resume()] act on a player that is
    rendering, respectively paused, and do nothing otherwise. *)
Definition voice_pause : M t unit :=
  vc <- the_voice;
  emit (Sink SPause);;
  if bool_decide (player vc = Rendering)
  then modify (set_voice (Some (set_player Paused vc)))
  else mret tt.

Definition voice_resume : M t unit :=
  vc <- the_voice;
  emit (Sink SResume);;
  if bool_decide (player vc = Paused)
  then modify (set_voice (Some (set_player Rendering vc)))
  else mret tt.

(** [self.voice.play(source, after=self.play_next_song)]: the client
    refuses to start a second player while one is rendering. *)
Definition voice_play (c : Song) (vol : Q) : M t unit :=
  vc <- the_voice;
  if bool_decide (player vc = Rendering)
  then raise (ClientException "Already playing audio.")
  else emit (Sink (SPlay c vol));;
       modify (set_voice (Some (set_player Rendering vc))).

(** [await self.voice.disconnect()] *)
Definition voice_disconnect : M t unit :=
  _ <- the_voice; emit (Sink SDisconnect).

(** *** Methods *)

(** [play_next_song(self, error=None)], the completion callback handed to
    [voice.play]. *)
Definition play_next_song (error : option string) : M t unit :=
  match error with
  | Some e => raise (VoiceError e)
  | None => modify (set_next true)
  end.

(** [skip(self)] *)
Definition skip : M t unit :=
  modify (set_skip_votes ∅);;
  playing <- gets is_playing;
  if playing then voice_stop else mret tt.

(** [async stop(self)] *)
Definition stop : M t unit :=
  modify (λ s, set_songs (SongQueue.clear (songs s)) s);;
  v <- gets voice;
  match v with
  | Some _ => voice_disconnect;; modify (set_voice None)
  | None => mret tt
  end.

(** [__del__]: [self.audio_player.cancel()] *)
Definition __del__ : M t unit := modify (set_audio_player Cancelled).

(** *** The background task *)

(** Lines 92 to 96: hand [self.current] to the voice client and announce
    it.  The volume written to the source is recorded with the call. *)
Definition play_current : M t unit :=
  c <- gets current;
  match c with
  | None => raise AttributeError
  | Some c =>
      vol <- gets _volume;
      voice_play c vol;;
      emit (SendEmbed c)
  end.

(** The handler of [except Exception as e]. *)
Definition report (e : Exn) : M t unit :=
  emit (Send "An error occurred while playing audio.");;
  emit (Stdout (str e)).

(** The rest of an iteration once [self.current] is decided: play inside
    the [try], then suspend in [await self.next.wait()]. *)
Definition play_then_wait : M t unit :=
  try_except play_current report;;
  modify (set_audio_player InNextWait).

(** [self.current = await self.songs.get()] returning the song [c]. *)
Definition got (c : Song) (rest : SongQueue.t) : M t unit :=
  modify (set_songs rest);;
  modify (set_current (Some c));;
  play_then_wait.

(** The handler of [except asyncio.TimeoutError]: schedule [self.stop()],
    print, and [continue] with the next iteration. *)
Definition timed_out : M t unit :=
  emit CreateTaskStop;;
  emit (Stdout "Player timed out.");;
  modify (set_audio_player AtTop).

(** The bound of [async with timeout(180)], in seconds. *)
Definition idle_timeout : nat := 180.

(** One activation of the coroutine: it runs from where it stands to its
    next suspension.  [None] when it cannot run: it is suspended and what it
    waits for has not happened, or it was cancelled. *)
Definition resume (s : t) : option (result unit * t * list Effect) :=
  match audio_player s with
  | AtTop =>
      Some ((modify (set_next false);;
             l <- gets loop;
             if negb l then
               q <- gets songs;
               match q with
               | c :: rest => got c rest
               | [] => modify (set_audio_player (InGet 0))
               end
             else play_then_wait) s)
  | InGet waited =>
      match songs s with
      | c :: rest => Some (got c rest s)
      | [] => if bool_decide (waited = idle_timeout)
              then Some (timed_out s)
              else None
      end
  | InNextWait =>
      if next s then Some (modify (set_audio_player AtTop) s) else None
  | Cancelled => None
  end.

(** One second passes while the coroutine is suspended in
    [songs.get()]; the clock does not run past the deadline before the
    timeout is served. *)
Definition tick (s : t) : option t :=
  match audio_player s with
  | InGet waited =>
      if bool_decide (waited < idle_timeout)%nat
      then Some (set_audio_player (InGet (S waited)) s)
      else None
  | _ => Some s
  end.

End VoiceState.

(** ** The cog *)

Module Music.

Import VoiceState.

(** *** Commands on [ctx.voice_state]

    Every command except [leave] touches only the session that
    [cog_before_invoke] stored in [ctx.voice_state]; those are computations
    over that session.  What else a command reads from [ctx] is an
    argument. *)

(** [_join]: "Joins a voice channel." *)
Definition _join (author : option Z) : M VoiceState.t unit :=
  match author with
  | None => raise AttributeError
  | Some destination =>
      v <- gets voice;
      match v with
      | Some vc =>
          emit (Sink (SMoveTo destination));;
          modify (set_voice (Some {| channel := destination;
                                     player := player vc |}))
      | None =>
          emit (Sink (SConnect destination));;
          modify (set_voice (Some {| channel := destination;
                                     player := NoPlayer |}))
      end
  end.

(** [_volume]: "Sets the volume of the player."  The guard is Python's
    chained comparison [0 > volume > 100], that is [0 > volume and
    volume > 100]; [volume / 100] is true division. *)
Definition _volume (volume : Z) : M VoiceState.t unit :=
  playing <- gets is_playing;
  if negb playing then emit (Send "Nothing being played at the moment.")
  else if bool_decide (0 > volume) && bool_decide (volume > 100)
  then emit (Send "Volume must be between 0 and 100")
  else
    modify (set_volume (volume # 100)%Q);;
    emit (Send ("Volume of the player set to " +:+ pretty volume +:+ "%")).

(** [_now]: "Displays the currently playing song." *)
Definition _now : M VoiceState.t unit :=
  c <- gets current;
  match c with
  | None => raise AttributeError
  | Some c => emit (SendEmbed c)
  end.

(** [_pause]: "Pauses the currently playing song."  The condition is
    [not ctx.voice_state.is_playing and ctx.voice_state.voice.is_playing()]:
    [not] binds tighter than [and], and [and] evaluates its right operand
    only when the left one is true. *)
Definition _pause : M VoiceState.t unit :=
  playing <- gets is_playing;
  cond <- (if negb playing then voice_is_playing else mret false);
  if cond then voice_pause;; emit (AddReaction PlayPause) else mret tt.

(** [_resume]: "Resumes a currently paused song." *)
Definition _resume : M VoiceState.t unit :=
  playing <- gets is_playing;
  cond <- (if negb playing then voice_is_paused else mret false);
  if cond then voice_resume;; emit (AddReaction PlayPause) else mret tt.

(** [_stop]: "Stops playing song and clears the queue." *)
Definition _stop : M VoiceState.t unit :=
  modify (λ s, set_songs (SongQueue.clear (songs s)) s);;
  playing <- gets is_playing;
  if playing then voice_stop;; emit (AddReaction StopButton) else mret tt.

(** [_skip]; the vote counting of its docstring is commented out in the
    source. *)
Definition _skip : M VoiceState.t unit :=
  playing <- gets is_playing;
  if negb playing then emit (Send "Not playing any music right now...")
  else emit (AddReaction NextTrack);; skip.

(** Modelled from the spec: [SongQueue.shuffle] (in [media.py]) produces a
    permutation of the current contents; [rnd] is the order that the random
    source picked. *)
Definition shuffle (rnd : list Song) (q : SongQueue.t) : SongQueue.t :=
  if decide (rnd ≡ₚ q) then rnd else q.

(** [_shuffle]: "Shuffles the queue." *)
Definition _shuffle (rnd : list Song) : M VoiceState.t unit :=
  n <- gets (λ s, SongQueue.len (songs s));
  if bool_decide (n = 0) then emit (Send "Empty queue.")
  else modify (λ s, set_songs (shuffle rnd (songs s)) s);;
       emit (AddReaction CheckMark).

(** [_remove], the command [dequeue]: "Removes a song from the queue at a
    given index."  It passes [index - 1] to [SongQueue.remove]. *)
Definition _remove (index : Z) : M VoiceState.t unit :=
  n <- gets (λ s, SongQueue.len (songs s));
  if bool_decide (n = 0) then emit (Send "Empty queue.")
  else
    q <- gets songs;
    match SongQueue.remove (index - 1) q with
    | Returned q' => modify (set_songs q');; emit (AddReaction CheckMark)
    | Raised e => raise e
    end.

(** [_loop]: "Loops the currently playing song." *)
Definition _loop : M VoiceState.t unit :=
  playing <- gets is_playing;
  if negb playing then emit (Send "Nothing being played at the moment.")
  else modify (λ s, set_loop (negb (loop s)) s);;
       emit (AddReaction CheckMark).

(** The [try]/[except YTDLError]/[else] of [_play] and [_play_playlist];
    [resolved] is what [YTDLSource.create_source] gave: the message of a
    [YTDLError] or the song. *)
Definition enqueue (resolved : string + Song) : M VoiceState.t unit :=
  match resolved with
  | inl e =>
      emit (Send ("An error occurred while processing this request: " +:+ e))
  | inr song =>
      modify (λ s, set_songs (SongQueue.put song (songs s)) s);;
      emit (Send ("Enqueued " +:+ title song))   (* str(source), abridged *)
  end.

(** [ctx.invoke(self._join)] when no voice client is attached. *)
Definition join_if_needed (author : option Z) : M VoiceState.t unit :=
  v <- gets voice;
  match v with
  | None => _join author
  | Some _ => mret tt
  end.

(** [_play]: "Plays a song." *)
Definition _play (author : option Z) (resolved : string + Song)
  : M VoiceState.t unit :=
  join_if_needed author;;
  enqueue resolved.

Fixpoint enqueue_all (l : list (string + Song)) : M VoiceState.t unit :=
  match l with
  | [] => mret tt
  | r :: l => enqueue r;; enqueue_all l
  end.

(** [_play_playlist]: "Plays all songs in a playlist. Clears the current
    queue."  [playlist] is what the playlist file holds under the name:
    nothing, or its entries as [create_source] resolves them. *)
Definition _play_playlist (author : option Z)
    (playlist : option (list (string + Song))) : M VoiceState.t unit :=
  v <- gets voice;
  match v with
  | Some _ =>
      modify (λ s, set_songs (SongQueue.clear (songs s)) s);;
      playing <- gets is_playing;
      if playing then voice_stop else mret tt
  | None => mret tt
  end;;
  match playlist with
  | None => emit (Send "Playlist does not exist.")
  | Some entries =>
      join_if_needed author;;
      enqueue_all entries;;
      emit (AddReaction CheckMark);;
      emit (Send "Playlist added to queue.")
  end.

(** *** The registry

    Python objects are shared by reference: [voice_states] and the running
    task both hold the same [VoiceState].  The sessions created so far live
    in a store, a reference is a position in it, and [voice_states] maps a
    guild id to a reference.  A session deleted from [voice_states] stays
    in the store: its task still runs on it. *)

Abbreviation ref := nat.

Record t := mk {
  voice_states : gmap Z ref;
  objects : list VoiceState.t;
  scheduled : list ref   (* the [stop()] tasks created and not yet run *)
}.

(** [Music.__init__]: [self.voice_states = {}] *)
Definition __init__ : t :=
  {| voice_states := ∅; objects := []; scheduled := [] |}.

Definition set_voice_states (d : gmap Z ref) (m : t) : t :=
  {| voice_states := d; objects := objects m; scheduled := scheduled m |}.

Definition set_objects (o : list VoiceState.t) (m : t) : t :=
  {| voice_states := voice_states m; objects := o;
     scheduled := scheduled m |}.

Definition set_scheduled (l : list ref) (m : t) : t :=
  {| voice_states := voice_states m; objects := objects m; scheduled := l |}.

(** Run a computation of the session behind [r], in place. *)
Definition on {A} (r : ref) (c : M VoiceState.t A) : M t A :=
  λ m,
    match objects m !! r with
    | Some s =>
        match c s with
        | (v, s', out) => (v, set_objects (<[r := s']> (objects m)) m, out)
        end
    | None => (Raised AttributeError, m, [])
    end.

(** [VoiceState(self.bot, ctx)]: a new object, whose reference is
    returned. *)
Definition new_voice_state (guild : Z) : M t ref :=
  λ m, (Returned (length (objects m)),
        set_objects (objects m ++ [VoiceState.__init__ guild]) m, []).

(** [get_voice_state(self, ctx)]; [guild] is [ctx.guild.id].  A
    [VoiceState] object is true, so [not state] holds exactly when the
    dictionary has no entry. *)
Definition get_voice_state (guild : Z) : M t ref :=
  state <- gets (λ m, voice_states m !! guild);
  match state with
  | Some r => mret r
  | None =>
      r <- new_voice_state guild;
      modify (λ m, set_voice_states (<[guild := r]> (voice_states m)) m);;
      mret r
  end.

(** What a command sees of its [commands.Context]. *)
Record Context := mkContext {
  guild : Z;                 (* ctx.guild.id *)
  author : option Z;         (* ctx.author.voice.channel, when there is one *)
  voice_state : ref          (* set by cog_before_invoke *)
}.

(** [ctx.voice_client]: the voice client of the guild, which is the one
    its registered session holds. *)
Definition voice_client (g : Z) : M t (option VoiceClient) :=
  gets (λ m, r ← voice_states m !! g; s ← objects m !! r; voice s).

(** [ensure_voice_state], the [before_invoke] hook of [join] and [play];
    [a] is [ctx.author.voice.channel] when the author is in a voice
    channel. *)
Definition ensure_voice_state (g : Z) (a : option Z) : M t unit :=
  match a with
  | None => raise (CommandError "You are not connected to any voice channel.")
  | Some ch =>
      v <- voice_client g;
      match v with
      | Some vc =>
          if bool_decide (channel vc ≠ ch)
          then raise (CommandError "Bot is already in a voice channel.")
          else mret tt
      | None => mret tt
      end
  end.

(** [_leave]: "Clears the queue and leaves the voice channel." *)
Definition _leave (ctx : Context) : M t unit :=
  v <- on (voice_state ctx) (gets voice);
  match v with
  | None => emit (Send "Not connected to any voice channel.")
  | Some _ =>
      on (voice_state ctx) stop;;
      modify (λ m, set_voice_states (delete (guild ctx) (voice_states m)) m)
  end.

(** [cog_unload]: schedule [stop()] for every registered session. *)
Definition cog_unload : M t unit :=
  λ m,
    let rs := (map_to_list (voice_states m)).*2 in
    (Returned tt, set_scheduled (scheduled m ++ rs) m,
     (λ _, CreateTaskStop) <$> rs).

(** *** Dispatch *)

Inductive Command :=
| Join
| Leave
| Volume (volume : Z)
| Now
| Pause
| Resume
| Stop
| Skip
| Shuffle (rnd : list Song)
| Dequeue (index : Z)
| Loop
| Play (resolved : string + Song)
| PlayPl (playlist : option (list (string + Song))).

(** The [before_invoke] hook registered for the command. *)
Definition before_invoke (g : Z) (a : option Z) (c : Command) : M t unit :=
  match c with
  | Join | Play _ => ensure_voice_state g a
  | _ => mret tt
  end.

(** The callback of the command. *)
Definition callback (ctx : Context) (c : Command) : M t unit :=
  match c with
  | Join => on (voice_state ctx) (_join (author ctx))
  | Leave => _leave ctx
  | Volume v => on (voice_state ctx) (_volume v)
  | Now => on (voice_state ctx) _now
  | Pause => on (voice_state ctx) _pause
  | Resume => on (voice_state ctx) _resume
  | Stop => on (voice_state ctx) _stop
  | Skip => on (voice_state ctx) _skip
  | Shuffle rnd => on (voice_state ctx) (_shuffle rnd)
  | Dequeue i => on (voice_state ctx) (_remove i)
  | Loop => on (voice_state ctx) _loop
  | Play r => on (voice_state ctx) (_play (author ctx) r)
  | PlayPl p => on (voice_state ctx) (_play_playlist (author ctx) p)
  end.

(** [cog_command_error] *)
Definition cog_command_error (error : Exn) : M t unit :=
  emit (Send ("An error occurred: " +:+ str error)).

(** A command of the cog arrives from guild [g]: the hook of the command
    runs, then [cog_before_invoke] fetches the session, then the callback
    runs; what any of them raises goes to [cog_command_error]. *)
Definition invoke (g : Z) (a : option Z) (c : Command) : M t unit :=
  try_except
    (before_invoke g a c;;
     vs <- get_voice_state g;
     callback {| guild := g; author := a; voice_state := vs |} c)
    cog_command_error.

(** *** The bot at run time

    What can happen next: a command arrives, the audio player task of a
    session is activated, a second passes for a session waiting in
    [songs.get()], the voice client of a session calls the [after]
    callback (an exception of the callback stays in the client's thread),
    a scheduled [stop()] runs, or the cog is unloaded. *)
Inductive Event :=
| Invoke (g : Z) (a : option Z) (c : Command)
| Wake (r : ref)
| Tick (r : ref)
| After (r : ref) (error : option string)
| RunStop
| Unload.

(** The player is gone when the client calls [after]. *)
Definition player_ended : M VoiceState.t unit :=
  modify (λ s, set_voice (set_player NoPlayer <$> voice s) s).

Definition step (e : Event) (m : t) : option (t * list Effect) :=
  match e with
  | Invoke g a c =>
      let r := invoke g a c m in Some (state_of r, output_of r)
  | Wake r =>
      s ← objects m !! r;
      x ← VoiceState.resume s;
      let out := output_of x in
      let m1 := set_objects (<[r := state_of x]> (objects m)) m in
      Some (set_scheduled
              (scheduled m1 ++ replicate (stops_initiated out) r) m1, out)
  | Tick r =>
      s ← objects m !! r;
      s' ← VoiceState.tick s;
      Some (set_objects (<[r := s']> (objects m)) m, [])
  | After r error =>
      let x := on r (player_ended;; play_next_song error) m in
      Some (state_of x, output_of x)
  | RunStop =>
      match scheduled m with
      | [] => None
      | r :: rest =>
          let x := on r stop (set_scheduled rest m) in
          Some (state_of x, output_of x)
      end
  | Unload =>
      let x := cog_unload m in Some (state_of x, output_of x)
  end.

(** Run a list of events, collecting the output; [None] when one of them
    cannot happen. *)
Fixpoint run (es : list Event) (m : t) : option (t * list Effect) :=
  match es with
  | [] => Some (m, [])
  | e :: es =>
      x ← step e m;
      y ← run es x.1;
      Some (y.1, x.2 ++ y.2)
  end.

(** *** The queue listing *)








(** *** Named playlists

    The commands keep the playlists in the file [playlists.yaml], a mapping
    from names to [media.Playlist] objects; [None] is the file not being
    there.  [Playlist] is defined in [media.py]: its constructor and its
    methods [add_song] and [remove_song], which may raise, are taken as
    they come. *)

Section Playlists.

Variable Playlist : Type.
Variable new : string → Playlist.                      (* Playlist(name) *)
Variable add_song : string → Playlist → result Playlist.
Variable remove_song : string → Playlist → result Playlist.

Definition File : Type := option (gmap string Playlist).

(** The common prologue: create the file with [playlists: {}] when it does
    not exist, then [yaml.load] it. *)
Definition load : M File (gmap string Playlist) :=
  λ f, let p := default ∅ f in (Returned p, Some p, []).

(** [yaml.dump(playlists, f)] *)
Definition dump (p : gmap string Playlist) : M File unit :=
  modify (λ _, Some p).

(** [_new_playlist]: "Creates a new playlist with the given name." *)
Definition _new_playlist (name : string) : M File unit :=
  p <- load;
  if bool_decide (is_Some (p !! name))
  then emit (Send "Playlist already exists.")
  else
    dump (<[name := new name]> p);;
    emit (AddReaction CheckMark);;
    emit (Send "Playlist created.").

(** The body shared by [_add_to_playlist] and [_remove_from_playlist]:
    look the playlist up, call the method on it, write the file. *)
Definition update_playlist (method : Playlist → result Playlist)
    (reply : string) (name : string) : M File unit :=
  p <- load;
  match p !! name with
  | None => emit (Send "Playlist does not exist.")
  | Some pl =>
      match method pl with
      | Raised e => raise e
      | Returned pl' =>
          dump (<[name := pl']> p);;
          emit (AddReaction CheckMark);;
          emit (Send reply)
      end
  end.

(** [_add_to_playlist]: "Adds a song to a playlist." *)
Definition _add_to_playlist (name search : string) : M File unit :=
  update_playlist (add_song search) "Song added to playlist." name.

(** [_remove_from_playlist]: "Removes a song from a playlist." *)
Definition _remove_from_playlist (name search : string) : M File unit :=
  update_playlist (remove_song search) "Song removed from playlist." name.

(** [_delete_playlist]: "Deletes a playlist." *)
Definition _delete_playlist (name : string) : M File unit :=
  p <- load;
  match p !! name with
  | None => emit (Send "Playlist does not exist.")
  | Some _ =>
      dump (delete name p);;
      emit (AddReaction CheckMark);;
      emit (Send "Playlist deleted.")
  end.

End Playlists.

End Music.

(** * Statements and sample data *)

Import VoiceState.

(** ** Sample data *)

Definition song_a : Song :=
  {| title := "A"; url := "https://example.org/a"; duration := 200;
     requester := 11 |}.
Definition song_b : Song :=
  {| title := "B"; url := "https://example.org/b"; duration := 180;
     requester := 12 |}.

(** A session freshly created for guild 1. *)
Definition fresh_session : VoiceState.t := VoiceState.__init__ 1.

(** A session connected to channel 7 whose client renders [song_a] while
    the task waits for the completion callback. *)
Definition playing_session : VoiceState.t :=
  {| _ctx := 1; current := Some song_a;
     voice := Some {| channel := 7; player := Rendering |};
     next := false; songs := [song_b]; _loop := false; _volume := 0.5%Q;
     skip_votes := ∅; audio_player := InNextWait |}.

(** What the specification says of [setVolume(v)] on a session [s]. *)
Definition set_volume_spec (v : Z) (s : VoiceState.t) : Prop :=
  let r := Music._volume v s in
  (¬ (0 ≤ v ≤ 100) →
     output_of r = [Send "Volume must be between 0 and 100"] ∧
     _volume (state_of r) = _volume s) ∧
  (0 ≤ v ≤ 100 →
     output_of r =
       [Send ("Volume of the player set to " +:+ pretty v +:+ "%")] ∧
     _volume (state_of r) = (v # 100)%Q).


(** A session whose client is paused on [song_a]. *)
Definition paused_session : VoiceState.t :=
  set_voice (Some {| channel := 7; player := Paused |}) playing_session.

(** A session joined to channel 7 that has not played anything yet. *)
Definition joined_session : VoiceState.t :=
  set_voice (Some {| channel := 7; player := NoPlayer |}) fresh_session.

(** ** Frames

    A computation preserves a relation [R] on states when the state it
    leaves behind is related to the one it started from. *)
Definition preserves {S} (R : relation S) {A} (c : M S A) : Prop :=
  ∀ s, R s (state_of (c s)).

(** The worlds the bot can be in: those that some sequence of events leads
    to from the start of the cog. *)
Definition reachable (m : Music.t) : Prop :=
  ∃ es out, Music.run es Music.__init__ = Some (m, out).

(** Every session of [m] is still there in [m'], and [R] relates what it
    was to what it is. *)
Definition sessions_related (R : relation VoiceState.t)
    (m m' : Music.t) : Prop :=
  ∀ r s, Music.objects m !! r = Some s →
         ∃ s', Music.objects m' !! r = Some s' ∧ R s s'.

(** Every session of [m'] that [m] did not have evolved from a newly
    constructed one. *)
Definition births_related (R : relation VoiceState.t)
    (m m' : Music.t) : Prop :=
  ∀ r s', Music.objects m' !! r = Some s' → Music.objects m !! r = None →
          ∃ g, R (VoiceState.__init__ g) s'.

Definition world_related (R : relation VoiceState.t)
    (m m' : Music.t) : Prop :=
  sessions_related R m m' ∧ births_related R m m'.

(** ** Relations between a session before and after *)

Definition same_ctx : relation VoiceState.t :=
  λ s s', _ctx s' = _ctx s.

Definition keeps_current : relation VoiceState.t :=
  λ s s', is_Some (current s) → is_Some (current s').

Definition keeps_no_votes : relation VoiceState.t :=
  λ s s', skip_votes s = ∅ → skip_votes s' = ∅.

(** ** The registry *)

(** Every registered reference leads to a session, the one that was
    created for that guild. *)
Definition registry_wf (m : Music.t) : Prop :=
  ∀ g r, Music.voice_states m !! g = Some r →
         ∃ s, Music.objects m !! r = Some s ∧ _ctx s = g.

(** How many sessions the registry holds for guild [g]. *)
Definition stored_for (g : Z) (m : Music.t) : nat :=
  length (filter (λ x, x.1 = g) (map_to_list (Music.voice_states m))).

(** The world with the single session [s], registered for guild 1. *)
Definition world_of (s : VoiceState.t) : Music.t :=
  {| Music.voice_states := {[ 1 := 0%nat ]};
     Music.objects := [s];
     Music.scheduled := [] |}.

(** Two guilds use the bot; the second one leaves. *)
Definition sample_events : list Music.Event :=
  [ Music.Invoke 1 (Some 7) (Music.Play (inr song_a));
    Music.Invoke 2 (Some 9) (Music.Play (inr song_b));
    Music.Wake 0; Music.Wake 1;
    Music.Invoke 1 (Some 7) (Music.Volume 40);
    Music.Invoke 2 (Some 9) Music.Leave;
    Music.Invoke 1 (Some 7) Music.Skip ].

(** ** Running the background task *)

(** [n] activations in a row, with what they emit. *)
Fixpoint resumes (n : nat) (s : VoiceState.t)
  : option (VoiceState.t * list Effect) :=
  match n with
  | O => Some (s, [])
  | S n =>
      x ← resume s;
      y ← resumes n (state_of x);
      Some (y.1, output_of x ++ y.2)
  end.

(** The voice client reports the end of the track: its player is gone and
    it calls [play_next_song] with [error]. *)
Definition completion (error : option string) : M VoiceState.t unit :=
  Music.player_ended;; play_next_song error.


(** A session connected to channel 7 that has played [song_a] and now
    waits, for [w] seconds so far, for the next song; its queue is
    empty. *)
Definition idle_session (w : nat) : VoiceState.t :=
  {| _ctx := 1; current := Some song_a;
     voice := Some {| channel := 7; player := NoPlayer |};
     next := false; songs := []; _loop := false; _volume := 0.5%Q;
     skip_votes := ∅; audio_player := InGet w |}.

(** A playing session whose queue is empty: [song_a] is the last track. *)
Definition last_track_session : VoiceState.t := set_songs [] playing_session.

(** The loop flag is as it was. *)
Definition keeps_loop_flag : relation VoiceState.t :=
  λ s s', _loop s' = _loop s.


(** [setter] leaves the queue and the current song alone. *)
Definition keeps_queue : relation VoiceState.t :=
  λ s s', songs s' = songs s ∧ current s' = current s.

(** ** Idle timeout *)

(** The events of an idle period for the session [r], which has waited [w]
    seconds already: the rest of the 180 seconds passes without a song,
    and the task is activated. *)
Definition idle_period (r : nat) (w : nat) : list Music.Event :=
  replicate (idle_timeout - w) (Music.Tick r) ++ [Music.Wake r].

(** What the specification says of the idle timeout of the session [r]
    of guild [g]: teardown is initiated once, the loop is over, and the
    registry has dropped the session. *)
Definition idle_timeout_spec (m : Music.t) (g : Z) (r : nat) (w : nat)
  : Prop :=
  ∀ m' out,
    Music.run (idle_period r w ++ [Music.RunStop]) m = Some (m', out) →
    stops_initiated out = 1%nat ∧
    (∃ s', Music.objects m' !! r = Some s' ∧ audio_player s' = Cancelled) ∧
    Music.voice_states m' !! g ≠ Some r.


(** ** Playback faults *)

(** [setter] leaves the event flag and the task where they are. *)
Definition task_untouched : relation VoiceState.t :=
  λ s s', next s' = next s ∧ audio_player s' = audio_player s.

(** The task is suspended in [await self.next.wait()] and the event is not
    set. *)
Definition blocked (s : VoiceState.t) : Prop :=
  audio_player s = InNextWait ∧ next s = false.

(** The voice client reports that playback failed, and then a song is
    requested as usual. *)
Definition failed_playback : list Music.Event :=
  [ Music.After 0 (Some "ffmpeg exited with code 1");
    Music.Invoke 1 (Some 7) (Music.Play (inr song_b)) ].

(** ** Scenarios *)

Definition song_c : Song :=
  {| title := "C"; url := "https://example.org/c"; duration := 240;
     requester := 11 |}.

(** The track being played ends and the task starts its next iteration. *)
Definition track_ends (r : nat) : list Music.Event :=
  [Music.After r None; Music.Wake r; Music.Wake r].

(** Three songs are requested in guild 1 and played to the end. *)
Definition three_songs : list Music.Event :=
  [ Music.Invoke 1 (Some 7) (Music.Play (inr song_a));
    Music.Invoke 1 (Some 7) (Music.Play (inr song_b));
    Music.Invoke 1 (Some 7) (Music.Play (inr song_c));
    Music.Wake 0 ] ++ track_ends 0 ++ track_ends 0 ++ track_ends 0.

(** Two songs are requested; the loop flag is set while the first one
    plays, the track is skipped twice, the flag is cleared and the track
    is skipped again. *)
Definition looped_songs : list Music.Event :=
  [ Music.Invoke 1 (Some 7) (Music.Play (inr song_a));
    Music.Invoke 1 (Some 7) (Music.Play (inr song_b));
    Music.Wake 0;
    Music.Invoke 1 (Some 7) Music.Loop;
    Music.Invoke 1 (Some 7) Music.Skip ] ++ track_ends 0 ++
  [ Music.Invoke 1 (Some 7) Music.Skip ] ++ track_ends 0 ++
  [ Music.Invoke 1 (Some 7) Music.Loop;
    Music.Invoke 1 (Some 7) Music.Skip ] ++ track_ends 0.

(** The calls on the voice client that a sequence of events produces from
    the start of the cog. *)
Definition sink_trace (es : list Music.Event) : option (list Effect) :=
  x ← Music.run es Music.__init__; Some (sink_calls x.2).

(** ** Requests *)

(** The songs among the results of [YTDLSource.create_source], in order. *)
Definition resolved_songs (l : list (string + Song)) : list Song :=
  omap (λ x, match x with inr song => Some song | inl _ => None end) l.

(** What [enqueue] tells the room for each result. *)
Definition enqueue_reports (l : list (string + Song)) : list Effect :=
  (λ x, match x with
        | inr song => Send ("Enqueued " +:+ title song)
        | inl e =>
            Send ("An error occurred while processing this request: " +:+ e)
        end) <$> l.

(** A playlist of which the second entry does not resolve. *)
Definition sample_playlist : list (string + Song) :=
  [inr song_b; inl "no results"; inr song_c].

(** A session torn down by the idle timeout: nothing queued, no client,
    the task waiting for a song. *)
Definition torn_down_session : VoiceState.t :=
  {| _ctx := 1; current := Some song_a; voice := None;
     next := false; songs := []; _loop := false; _volume := 0.5%Q;
     skip_votes := ∅; audio_player := InGet 3 |}.

(** ** Playlists *)

(** A stand-in for [media.Playlist], to have playlists to run the
    commands on: the list of its songs, to which [add_song] appends and
    from which [remove_song] takes a song out, raising when it is not
    there. *)
Definition sample_new (name : string) : list string := [].

Definition sample_add_song (search : string) (pl : list string)
  : result (list string) :=
  Returned (pl ++ [search]).

Definition sample_remove_song (search : string) (pl : list string)
  : result (list string) :=
  if bool_decide (search ∈ pl)
  then Returned (filter (λ x, x ≠ search) pl)
  else Raised IndexError.

(** A file with two playlists. *)
Definition sample_file : Music.File (list string) :=
  Some (<["road" := ["song one"; "song two"] ]>
          (<["gym" := ["song three"] ]> ∅)).

(** ** Unloading the cog *)

(** A session after teardown: no client, nothing queued. *)
Definition stopped (s : VoiceState.t) : Prop :=
  voice s = None ∧ songs s = [].

(** The cog is unloaded and the teardowns it scheduled run. *)
Definition unload_events (m : Music.t) : list Music.Event :=
  Music.Unload :: replicate (size (Music.voice_states m)) Music.RunStop.

(** Commands and a clock tick, without any completion callback. *)
Definition no_completion_events : list Music.Event :=
  [ Music.Invoke 1 (Some 7) (Music.Play (inr song_c));
    Music.Tick 0;
    Music.Invoke 1 (Some 7) Music.Skip;
    Music.After 0 (Some "broken pipe") ].

(** * Properties *)

(** Unfold the monad down to pairs. *)
Ltac munfold :=
  unfold bind, mbind, M_bind, mret, M_ret, gets, modify, emit, raise,
    try_except, state_of, value_of, output_of in *.

(** ** The model at work *)

(** Songs are played in the order of the queue, and then the task waits. *)
Example plays_in_queue_order :
  sink_trace three_songs =
    Some [Sink (SConnect 7); Sink (SPlay song_a 0.5%Q);
          Sink (SPlay song_b 0.5%Q); Sink (SPlay song_c 0.5%Q)] ∧
  (audio_player <$>
     (x ← Music.run three_songs Music.__init__; Music.objects x.1 !! 0%nat)) =
    Some (InGet 0).
Proof. split; reflexivity. Qed.

(** With the loop flag set the same song comes back after every skip; once
    the flag is cleared, the next skip moves on to the queue. *)
Example replays_while_looping :
  sink_trace looped_songs =
    Some [Sink (SConnect 7);
          Sink (SPlay song_a 0.5%Q); Sink SStop;
          Sink (SPlay song_a 0.5%Q); Sink SStop;
          Sink (SPlay song_a 0.5%Q); Sink SStop;
          Sink (SPlay song_b 0.5%Q)].
Proof. reflexivity. Qed.

(** Split a session on whether a client is attached and a current song
    is set, so that the code runs. *)
Ltac session_cases s :=
  let cur := fresh "cur" in
  let vc := fresh "vc" in
  destruct s as [? cur vc ? ? ? ? ? ?];
  destruct vc as [[? ?]|], cur; cbn in *.

(** ** Volume *)

(** The range guard of [_volume] never holds. *)
Lemma volume_guard_never (v : Z) :
  bool_decide (0 > v) && bool_decide (v > 100) = false.
Proof.
  destruct (bool_decide_reflect (0 > v)); [|done].
  apply bool_decide_eq_false; lia.
Qed.

Lemma volume_not_playing (v : Z) (s : VoiceState.t) :
  is_playing s = false →
  Music._volume v s =
    (Returned tt, s, [Send "Nothing being played at the moment."]).
Proof. intros H. unfold Music._volume. munfold. by rewrite H. Qed.

Lemma volume_playing (v : Z) (s : VoiceState.t) :
  is_playing s = true →
  Music._volume v s =
    (Returned tt, set_volume (v # 100)%Q s,
     [Send ("Volume of the player set to " +:+ pretty v +:+ "%")]).
Proof.
  intros H. unfold Music._volume. munfold.
  rewrite H, volume_guard_never. reflexivity.
Qed.

(** C3, as stated, fails: on a session that is not playing [setVolume(0)]
    stores nothing, and on a playing session [setVolume(150)] is stored. *)
Lemma C3_set_volume_counterexample :
  ¬ set_volume_spec 0 fresh_session ∧ ¬ set_volume_spec 150 playing_session.
Proof.
  split; intros [Hout Hin].
  - destruct Hin as [H _]; [lia|]. vm_compute in H. discriminate.
  - destruct Hout as [H _]; [lia|]. vm_compute in H. discriminate.
Qed.

(** C3, amended: on a session that is not playing, [_volume v] answers
    "Nothing being played at the moment." and leaves the session as it
    was, whatever [v]; on a playing session and for [v] in [[0,100]] it
    stores [v/100] and confirms. *)
Theorem C3_set_volume (v : Z) (s : VoiceState.t) :
  (is_playing s = false →
     Music._volume v s =
       (Returned tt, s, [Send "Nothing being played at the moment."])) ∧
  (is_playing s = true → 0 ≤ v ≤ 100 →
     Music._volume v s =
       (Returned tt, set_volume (v # 100)%Q s,
        [Send ("Volume of the player set to " +:+ pretty v +:+ "%")]) ∧
     (0 <= _volume (state_of (Music._volume v s)) <= 1)%Q).
Proof.
  split.
  - apply volume_not_playing.
  - intros Hp Hv. rewrite (volume_playing _ _ Hp). split; [done|].
    unfold state_of; cbn. unfold Qle; cbn. lia.
Qed.

Lemma C3_set_volume_witness :
  Music._volume 0 fresh_session =
    (Returned tt, fresh_session,
     [Send "Nothing being played at the moment."]) ∧
  _volume (state_of (Music._volume 100 playing_session)) = (100 # 100)%Q.
Proof.
  split.
  - apply (C3_set_volume 0 fresh_session). reflexivity.
  - destruct (C3_set_volume 100 playing_session) as [_ H].
    destruct H as [H _]; [reflexivity | lia |].
    rewrite H. reflexivity.
Defined.

(** ** Pause and resume *)

Lemma pause_playing (s : VoiceState.t) :
  is_playing s = true → Music._pause s = (Returned tt, s, []).
Proof. intros H. unfold Music._pause. munfold. by rewrite H. Qed.

Lemma resume_playing (s : VoiceState.t) :
  is_playing s = true → Music._resume s = (Returned tt, s, []).
Proof. intros H. unfold Music._resume. munfold. by rewrite H. Qed.

(** Without a voice client the condition itself raises. *)
Lemma pause_without_voice (s : VoiceState.t) :
  voice s = None →
  Music._pause s = (Raised AttributeError, s, []) ∧
  Music._resume s = (Raised AttributeError, s, []).
Proof.
  intros H. unfold Music._pause, Music._resume, voice_is_playing,
    voice_is_paused, the_voice, is_playing. munfold.
  destruct s; cbn in *; by subst.
Qed.

(** [_pause] reaches [voice.pause()] only on a session that is not
    playing: a client is attached and no current song is set. *)
Lemma pause_effect_only_idle (s : VoiceState.t) :
  sink_calls (output_of (Music._pause s)) ≠ [] →
  is_playing s = false ∧ current s = None.
Proof.
  unfold Music._pause, voice_is_playing, voice_pause, the_voice, is_playing.
  munfold. session_cases s; try done.
Qed.

(** C4 at its failing inputs: while the session is playing and the client
    renders, [_pause] does nothing, and while the session is playing and
    the client is paused, [_resume] does nothing: no call on the client,
    no reaction, the session as it was. *)
Theorem C4_pause_resume_inert :
  is_playing playing_session = true ∧
  player <$> voice playing_session = Some Rendering ∧
  Music._pause playing_session = (Returned tt, playing_session, []) ∧
  is_playing paused_session = true ∧
  player <$> voice paused_session = Some Paused ∧
  Music._resume paused_session = (Returned tt, paused_session, []).
Proof.
  split_and!;
    [reflexivity | reflexivity | by apply pause_playing
    |reflexivity | reflexivity | by apply resume_playing].
Qed.

(** ** Stop *)

(** C5: [_stop] empties the queue, calls [voice.stop()] exactly when the
    session is playing, never disconnects (the client stays attached to
    its channel), and leaves volume, loop flag, current song and every
    other attribute as they were. *)
Theorem C5_stop_frame (s : VoiceState.t) :
  let r := Music._stop s in
  value_of r = Returned tt ∧
  songs (state_of r) = [] ∧
  sink_calls (output_of r) = (if is_playing s then [Sink SStop] else []) ∧
  (Sink SDisconnect ∉ output_of r) ∧
  (channel <$> voice (state_of r)) = (channel <$> voice s) ∧
  _volume (state_of r) = _volume s ∧
  _loop (state_of r) = _loop s ∧
  current (state_of r) = current s ∧
  skip_votes (state_of r) = skip_votes s ∧
  next (state_of r) = next s ∧
  audio_player (state_of r) = audio_player s ∧
  _ctx (state_of r) = _ctx s.
Proof.
  unfold Music._stop, voice_stop, the_voice, is_playing. munfold.
  session_cases s; split_and!; try done.
  all: intros Hin;
    repeat (apply elem_of_cons in Hin as [Hin|Hin]; [discriminate|]);
    by apply elem_of_nil in Hin.
Qed.

(** [VoiceState.stop], the teardown behind [leave] and the idle timeout,
    is another operation: it empties the queue and lets go of the client,
    which it disconnects when there is one. *)
Lemma stop_tears_down (s : VoiceState.t) :
  stop s =
    match voice s with
    | Some _ =>
        (Returned tt, set_voice None (set_songs [] s), [Sink SDisconnect])
    | None => (Returned tt, set_songs [] s, [])
    end.
Proof.
  unfold stop, voice_disconnect, the_voice. munfold.
  session_cases s; reflexivity.
Qed.

(** ** Skip *)

Lemma skip_clears (s : VoiceState.t) :
  skip_votes (state_of (skip s)) = ∅.
Proof.
  unfold skip, voice_stop, the_voice, is_playing. munfold.
  session_cases s; reflexivity.
Qed.

Lemma skip_playing (s : VoiceState.t) :
  is_playing s = true → output_of (skip s) = [Sink SStop].
Proof.
  unfold skip, voice_stop, the_voice, is_playing. munfold.
  session_cases s; done.
Qed.

Lemma skip_not_playing (s : VoiceState.t) :
  is_playing s = false →
  skip s = (Returned tt, set_skip_votes ∅ s, []).
Proof.
  unfold skip, voice_stop, the_voice, is_playing. munfold.
  session_cases s; done.
Qed.

Lemma skip_command_playing (s : VoiceState.t) :
  is_playing s = true →
  Music._skip s =
    (value_of (skip s), state_of (skip s),
     AddReaction NextTrack :: output_of (skip s)).
Proof.
  intros H. unfold Music._skip. munfold. rewrite H. cbn.
  by destruct (skip s) as [[??]?].
Qed.

Lemma skip_command_not_playing (s : VoiceState.t) :
  is_playing s = false →
  Music._skip s =
    (Returned tt, s, [Send "Not playing any music right now..."]).
Proof. intros H. unfold Music._skip. munfold. by rewrite H. Qed.

(** ** Dequeue by index *)

Lemma remove_outside (i : Z) (q : SongQueue.t) :
  ¬ (0 ≤ i < SongQueue.len q) → SongQueue.remove i q = Raised IndexError.
Proof. intros H. unfold SongQueue.remove. by rewrite bool_decide_eq_false_2. Qed.

Lemma remove_inside (i : Z) (q : SongQueue.t) :
  0 ≤ i < SongQueue.len q →
  ∃ x, q !! Z.to_nat i = Some x ∧
       q = take (Z.to_nat i) q ++ x :: drop (S (Z.to_nat i)) q ∧
       SongQueue.remove i q =
         Returned (take (Z.to_nat i) q ++ drop (S (Z.to_nat i)) q).
Proof.
  intros H. unfold SongQueue.remove, SongQueue.len in *.
  rewrite bool_decide_eq_true_2 by done.
  destruct (lookup_lt_is_Some_2 q (Z.to_nat i)) as [x Hx]; [lia|].
  exists x. split; [done|]. split.
  - by rewrite take_drop_middle.
  - by rewrite delete_take_drop.
Qed.

Lemma remove_command (index : Z) (s : VoiceState.t) :
  songs s ≠ [] →
  Music._remove index s =
    match SongQueue.remove (index - 1) (songs s) with
    | Returned q' => (Returned tt, set_songs q' s, [AddReaction CheckMark])
    | Raised e => (Raised e, s, [])
    end.
Proof.
  intros Hne. unfold Music._remove, SongQueue.len. munfold.
  rewrite bool_decide_eq_false_2.
  - by destruct (SongQueue.remove _ _).
  - destruct (songs s); [done | cbn; lia].
Qed.

(** C8: [removeAt(i)] fails with OutOfRange (Python's [IndexError]) for
    every [i] outside [[0, length)], and then nothing is written to the
    queue; for [i] inside it removes exactly the song at position [i]: the
    songs before and after it stay, in their order.  The command
    [dequeue] hands its argument minus one to it. *)
Theorem C8_remove_at (i : Z) (s : VoiceState.t) :
  let q := songs s in
  (¬ (0 ≤ i < SongQueue.len q) →
     SongQueue.remove i q = Raised IndexError ∧
     (q ≠ [] → Music._remove (i + 1) s = (Raised IndexError, s, []))) ∧
  (0 ≤ i < SongQueue.len q →
     ∃ x, q !! Z.to_nat i = Some x ∧
          q = take (Z.to_nat i) q ++ x :: drop (S (Z.to_nat i)) q ∧
          SongQueue.remove i q =
            Returned (take (Z.to_nat i) q ++ drop (S (Z.to_nat i)) q) ∧
          state_of (Music._remove (i + 1) s) =
            set_songs (take (Z.to_nat i) q ++ drop (S (Z.to_nat i)) q) s).
Proof.
  cbn. split.
  - intros H. split; [by apply remove_outside|].
    intros Hne. rewrite remove_command by done.
    replace (i + 1 - 1) with i by lia. by rewrite remove_outside.
  - intros H. destruct (remove_inside i (songs s) H) as (x & Hx & Hq & Hr).
    exists x. split_and!; try done.
    rewrite remove_command.
    + replace (i + 1 - 1) with i by lia. by rewrite Hr.
    + intros Hnil. rewrite Hnil in Hx. done.
Qed.

Lemma C8_remove_at_witness :
  Music._remove (2 + 1) playing_session =
    (Raised IndexError, playing_session, []) ∧
  songs (state_of (Music._remove (0 + 1) playing_session)) = [].
Proof.
  split.
  - destruct (C8_remove_at 2 playing_session) as [H _].
    destruct H as [_ H]; [unfold SongQueue.len; cbn; lia|]. by apply H.
  - destruct (C8_remove_at 0 playing_session) as [_ H].
    destruct H as (x & _ & _ & _ & H); [unfold SongQueue.len; cbn; lia|].
    rewrite H. reflexivity.
Defined.

(** C7: [skip()] always leaves the skip-vote set empty; on a playing
    session it calls [voice.stop()], alone and through the command; on a
    session that is not playing it makes no call on the client, and the
    command answers "Not playing any music right now..." and changes
    nothing, so that a vote set that was empty, as it always is, stays
    empty. *)
Theorem C7_skip (s : VoiceState.t) :
  skip_votes (state_of (skip s)) = ∅ ∧
  (is_playing s = true →
     sink_calls (output_of (skip s)) = [Sink SStop] ∧
     sink_calls (output_of (Music._skip s)) = [Sink SStop] ∧
     state_of (Music._skip s) = state_of (skip s)) ∧
  (is_playing s = false →
     sink_calls (output_of (skip s)) = [] ∧
     Music._skip s =
       (Returned tt, s, [Send "Not playing any music right now..."])) ∧
  (skip_votes s = ∅ → skip_votes (state_of (Music._skip s)) = ∅).
Proof.
  split_and!.
  - apply skip_clears.
  - intros H. rewrite skip_command_playing, skip_playing by done. done.
  - intros H. rewrite skip_not_playing, skip_command_not_playing by done.
    done.
  - intros H. destruct (is_playing s) eqn:Hp.
    + rewrite skip_command_playing by done. apply skip_clears.
    + by rewrite skip_command_not_playing.
Qed.

Lemma C7_skip_witness :
  sink_calls (output_of (Music._skip playing_session)) = [Sink SStop] ∧
  Music._skip fresh_session =
    (Returned tt, fresh_session,
     [Send "Not playing any music right now..."]).
Proof.
  destruct (C7_skip playing_session) as (_ & H1 & _).
  destruct (C7_skip fresh_session) as (_ & _ & H2 & _).
  split.
  - apply H1. reflexivity.
  - apply H2. reflexivity.
Defined.

(** ** Frame rules

    Which attributes a piece of code can write is read off its text: the
    rules below carry a relation through the monad, and each attribute
    setter that the relation tolerates is a hypothesis. *)

Section MonadFrame.

Context {S : Type} (R : relation S) `{!PreOrder R}.

Lemma preserves_mret {A} (a : A) : preserves R (mret a).
Proof. intros s. reflexivity. Qed.

Lemma preserves_gets {A} (f : S → A) : preserves R (gets f).
Proof. intros s. reflexivity. Qed.

Lemma preserves_emit (e : Effect) : preserves R (emit e).
Proof. intros s. reflexivity. Qed.

Lemma preserves_raise {A} (e : Exn) : preserves R (raise (A := A) e).
Proof. intros s. reflexivity. Qed.

Lemma preserves_modify (f : S → S) :
  (∀ s, R s (f s)) → preserves R (modify f).
Proof. intros H s. apply H. Qed.

Lemma preserves_mbind {A B} (m : M S A) (k : A → M S B) :
  preserves R m → (∀ a, preserves R (k a)) → preserves R (m ≫= k).
Proof.
  intros Hm Hk s. specialize (Hm s). unfold state_of in *.
  unfold mbind, M_bind. destruct (m s) as [[[a|e] s1] o1]; cbn in *; [|done].
  specialize (Hk a s1). destruct (k a s1) as [[r s2] o2]; cbn in *.
  by etransitivity.
Qed.

Lemma preserves_bind {A B} (m : M S A) (k : A → M S B) :
  preserves R m → (∀ a, preserves R (k a)) → preserves R (bind m k).
Proof. apply preserves_mbind. Qed.

Lemma preserves_try_except {A} (m : M S A) (h : Exn → M S A) :
  preserves R m → (∀ e, preserves R (h e)) → preserves R (try_except m h).
Proof.
  intros Hm Hh s. specialize (Hm s). unfold state_of, try_except in *.
  destruct (m s) as [[[a|e] s1] o1]; cbn in *; [done|].
  specialize (Hh e s1). destruct (h e s1) as [[r s2] o2]; cbn in *.
  by etransitivity.
Qed.

End MonadFrame.

(** Take a computation apart along its binds and branches. *)
Ltac frame_step :=
  match goal with
  | |- preserves _ (if ?b then _ else _) => destruct b
  | |- preserves _ (match ?x with _ => _ end) => destruct x
  | |- preserves _ (mret _) => apply preserves_mret; apply _
  | |- preserves _ (gets _) => apply preserves_gets; apply _
  | |- preserves _ (emit _) => apply preserves_emit; apply _
  | |- preserves _ (raise _) => apply preserves_raise; apply _
  | |- preserves _ (bind _ _) =>
      apply preserves_bind; [apply _| |intros ?]
  | |- preserves _ (mbind _ _) =>
      apply preserves_mbind; [apply _| |intros ?]
  | |- preserves _ (try_except _ _) =>
      apply preserves_try_except; [apply _| |intros ?]
  | |- preserves _ (modify _) => apply preserves_modify; intros ?
  end.

Ltac frame := repeat frame_step; eauto.

Section SessionFrame.

Variable R : relation VoiceState.t.
Context `{!PreOrder R}.

Hypothesis R_voice : ∀ v s, R s (set_voice v s).
Hypothesis R_songs : ∀ q s, R s (set_songs q s).
Hypothesis R_loop : ∀ b s, R s (set_loop b s).
Hypothesis R_volume : ∀ v s, R s (set_volume v s).
Hypothesis R_votes : ∀ s, R s (set_skip_votes ∅ s).

Lemma preserves_the_voice : preserves R the_voice.
Proof. intros s. unfold the_voice. destruct (voice s); reflexivity. Qed.

Lemma preserves_voice_stop : preserves R voice_stop.
Proof. unfold voice_stop. pose proof preserves_the_voice. frame. Qed.

Lemma preserves_voice_pause : preserves R voice_pause.
Proof. unfold voice_pause. pose proof preserves_the_voice. frame. Qed.

Lemma preserves_voice_resume : preserves R voice_resume.
Proof. unfold voice_resume. pose proof preserves_the_voice. frame. Qed.

Lemma preserves_voice_play c vol : preserves R (voice_play c vol).
Proof. unfold voice_play. pose proof preserves_the_voice. frame. Qed.

Lemma preserves_voice_disconnect : preserves R voice_disconnect.
Proof. unfold voice_disconnect. pose proof preserves_the_voice. frame. Qed.

Lemma preserves_skip : preserves R skip.
Proof. unfold skip. pose proof preserves_voice_stop. frame. Qed.

Lemma preserves_stop : preserves R stop.
Proof. unfold stop. pose proof preserves_voice_disconnect. frame. Qed.

Lemma preserves_player_ended : preserves R Music.player_ended.
Proof. unfold Music.player_ended. frame. Qed.

(** The commands write the voice client, the queue, the loop flag, the
    volume and the (emptied) vote set, and nothing else. *)

Lemma preserves_join a : preserves R (Music._join a).
Proof. unfold Music._join. frame. Qed.

Lemma preserves_volume v : preserves R (Music._volume v).
Proof. unfold Music._volume. frame. Qed.

Lemma preserves_now : preserves R Music._now.
Proof. unfold Music._now. frame. Qed.

Lemma preserves_pause : preserves R Music._pause.
Proof.
  unfold Music._pause, voice_is_playing.
  pose proof preserves_the_voice. pose proof preserves_voice_pause. frame.
Qed.

Lemma preserves_resume : preserves R Music._resume.
Proof.
  unfold Music._resume, voice_is_paused.
  pose proof preserves_the_voice. pose proof preserves_voice_resume. frame.
Qed.

Lemma preserves_stop_command : preserves R Music._stop.
Proof. unfold Music._stop. pose proof preserves_voice_stop. frame. Qed.

Lemma preserves_skip_command : preserves R Music._skip.
Proof. unfold Music._skip. pose proof preserves_skip. frame. Qed.

Lemma preserves_shuffle rnd : preserves R (Music._shuffle rnd).
Proof. unfold Music._shuffle. frame. Qed.

Lemma preserves_remove i : preserves R (Music._remove i).
Proof. unfold Music._remove. frame. Qed.

Lemma preserves_loop : preserves R Music._loop.
Proof. unfold Music._loop. frame. Qed.

Lemma preserves_enqueue r : preserves R (Music.enqueue r).
Proof. unfold Music.enqueue. frame. Qed.

Lemma preserves_join_if_needed a : preserves R (Music.join_if_needed a).
Proof. unfold Music.join_if_needed. pose proof (preserves_join a). frame. Qed.

Lemma preserves_play a r : preserves R (Music._play a r).
Proof.
  unfold Music._play.
  pose proof (preserves_join_if_needed a). pose proof (preserves_enqueue r).
  frame.
Qed.

Lemma preserves_enqueue_all l : preserves R (Music.enqueue_all l).
Proof.
  induction l as [|r l IH]; cbn; [apply preserves_mret; apply _|].
  pose proof (preserves_enqueue r). frame.
Qed.

Lemma preserves_play_playlist a p : preserves R (Music._play_playlist a p).
Proof.
  unfold Music._play_playlist.
  pose proof preserves_voice_stop. pose proof (preserves_join_if_needed a).
  pose proof preserves_enqueue_all. frame.
Qed.

(** The background task also writes the current song (never to [None]),
    the event flag and its own program point. *)

Hypothesis R_current : ∀ c s, R s (set_current (Some c) s).
Hypothesis R_next : ∀ b s, R s (set_next b s).
Hypothesis R_task : ∀ p s, R s (set_audio_player p s).

Lemma preserves_play_next_song e : preserves R (play_next_song e).
Proof. unfold play_next_song. frame. Qed.

Lemma preserves_play_current : preserves R play_current.
Proof. unfold play_current. pose proof preserves_voice_play. frame. Qed.

Lemma preserves_report e : preserves R (report e).
Proof. unfold report. frame. Qed.

Lemma preserves_play_then_wait : preserves R play_then_wait.
Proof.
  unfold play_then_wait.
  pose proof preserves_play_current. pose proof preserves_report. frame.
Qed.

Lemma preserves_got c rest : preserves R (got c rest).
Proof. unfold got. pose proof preserves_play_then_wait. frame. Qed.

Lemma preserves_timed_out : preserves R timed_out.
Proof. unfold timed_out. frame. Qed.

Lemma resume_related s x : resume s = Some x → R s (state_of x).
Proof.
  unfold resume. intros H.
  destruct (audio_player s) as [|waited| |]; [| | |done].
  - injection H as <-.
    enough (Hp : preserves R
      (modify (set_next false);;
       l <- gets loop;
       if negb l then
         q <- gets songs;
         match q with
         | c :: rest => got c rest
         | [] => modify (set_audio_player (InGet 0))
         end
       else play_then_wait)) by apply Hp.
    pose proof preserves_got. pose proof preserves_play_then_wait. frame.
  - destruct (songs s) as [|c rest].
    + case_bool_decide; [|done]. injection H as <-.
      apply preserves_timed_out.
    + injection H as <-. apply preserves_got.
  - destruct (next s); [|done]. injection H as <-. cbn. apply R_task.
Qed.

Lemma tick_related s s' : tick s = Some s' → R s s'.
Proof.
  unfold tick. intros H. destruct (audio_player s); simplify_eq; try done.
  case_bool_decide; simplify_eq. apply R_task.
Qed.

(** *** From sessions to the whole bot *)

#[local] Instance world_related_preorder : PreOrder (world_related R).
Proof.
  split.
  - intros m. split.
    + intros r s Hs. by exists s.
    + intros r s Hs Hn. congruence.
  - intros m1 m2 m3 [S12 B12] [S23 B23]. split.
    + intros r s Hs. destruct (S12 r s Hs) as (s2 & Hs2 & HR2).
      destruct (S23 r s2 Hs2) as (s3 & Hs3 & HR3).
      exists s3. split; [done|]. by etransitivity.
    + intros r s3 Hs3 Hn.
      destruct (Music.objects m2 !! r) as [s2|] eqn:Hs2.
      * destruct (B12 r s2 Hs2 Hn) as (g & Hg).
        destruct (S23 r s2 Hs2) as (s3' & Hs3' & HR3).
        exists g. simplify_eq. by etransitivity.
      * by apply (B23 r s3).
Qed.

Lemma on_some {A} r (c : M VoiceState.t A) m s :
  Music.objects m !! r = Some s →
  Music.on r c m =
    (value_of (c s),
     Music.set_objects (<[r := state_of (c s)]> (Music.objects m)) m,
     output_of (c s)).
Proof.
  intros H. unfold Music.on. rewrite H. by destruct (c s) as [[??]?].
Qed.

Lemma on_none {A} r (c : M VoiceState.t A) m :
  Music.objects m !! r = None →
  Music.on r c m = (Raised AttributeError, m, []).
Proof. intros H. unfold Music.on. by rewrite H. Qed.

Lemma update_related r s s' m :
  Music.objects m !! r = Some s → R s s' →
  world_related R m (Music.set_objects (<[r := s']> (Music.objects m)) m).
Proof.
  intros Hs HR. pose proof (lookup_lt_Some _ _ _ Hs) as Hlt. split.
  - intros r0 s0 Hs0. cbn. destruct (decide (r0 = r)) as [->|Hne].
    + exists s'. rewrite list_lookup_insert_eq by done. by simplify_eq.
    + exists s0. by rewrite list_lookup_insert_ne.
  - intros r0 s0 Hs0 Hn. cbn in Hs0.
    apply lookup_lt_Some in Hs0. rewrite length_insert in Hs0.
    apply lookup_ge_None in Hn. lia.
Qed.

Lemma preserves_on {A} r (c : M VoiceState.t A) :
  preserves R c → preserves (world_related R) (Music.on r c).
Proof.
  intros Hc m. destruct (Music.objects m !! r) as [s|] eqn:Hs.
  - rewrite (on_some _ _ _ _ Hs). apply (update_related r s); [done|apply Hc].
  - rewrite (on_none _ _ _ Hs). reflexivity.
Qed.

Lemma preserves_new_voice_state g :
  preserves (world_related R) (Music.new_voice_state g).
Proof.
  intros m. unfold Music.new_voice_state, state_of; cbn. split.
  - intros r s Hs. exists s. split; [|done]. cbn.
    by apply lookup_app_l_Some.
  - intros r s' Hs' Hn. cbn in Hs'. exists g.
    apply lookup_ge_None in Hn. rewrite lookup_app_r in Hs' by done.
    apply list_lookup_singleton_Some in Hs' as [_ <-]. reflexivity.
Qed.

Lemma voice_states_related d m :
  world_related R m (Music.set_voice_states d m).
Proof. split; intros r s Hs; [by exists s | cbn in *; congruence]. Qed.

Lemma scheduled_related l m : world_related R m (Music.set_scheduled l m).
Proof. split; intros r s Hs; [by exists s | cbn in *; congruence]. Qed.

Lemma preserves_get_voice_state g :
  preserves (world_related R) (Music.get_voice_state g).
Proof.
  unfold Music.get_voice_state. pose proof (preserves_new_voice_state g).
  frame. apply voice_states_related.
Qed.

Lemma preserves_leave ctx : preserves (world_related R) (Music._leave ctx).
Proof.
  unfold Music._leave.
  pose proof (preserves_on (A := option VoiceClient)).
  pose proof (preserves_on (A := unit)). pose proof preserves_stop.
  frame.
  - apply H. apply preserves_gets, _.
  - apply voice_states_related.
Qed.

Lemma preserves_cog_unload : preserves (world_related R) Music.cog_unload.
Proof. intros m. apply scheduled_related. Qed.

Lemma preserves_callback ctx c :
  preserves (world_related R) (Music.callback ctx c).
Proof.
  destruct c; cbn; try apply preserves_leave; apply preserves_on.
  - apply preserves_join.
  - apply preserves_volume.
  - apply preserves_now.
  - apply preserves_pause.
  - apply preserves_resume.
  - apply preserves_stop_command.
  - apply preserves_skip_command.
  - apply preserves_shuffle.
  - apply preserves_remove.
  - apply preserves_loop.
  - apply preserves_play.
  - apply preserves_play_playlist.
Qed.

Lemma preserves_before_invoke g a c :
  preserves (world_related R) (Music.before_invoke g a c).
Proof.
  unfold Music.before_invoke, Music.ensure_voice_state, Music.voice_client.
  frame.
Qed.

Lemma preserves_invoke g a c :
  preserves (world_related R) (Music.invoke g a c).
Proof.
  unfold Music.invoke, Music.cog_command_error.
  pose proof (preserves_before_invoke g a c).
  pose proof (preserves_get_voice_state g). pose proof preserves_callback.
  frame.
Qed.

Lemma step_related e m m' out :
  Music.step e m = Some (m', out) → world_related R m m'.
Proof.
  destruct e as [g a c|r|r|r error| |]; cbn; intros H.
  - simplify_eq. apply preserves_invoke.
  - destruct (Music.objects m !! r) as [s|] eqn:Hs; [|done]. cbn in H.
    destruct (resume s) as [x|] eqn:Hx; [|done]. cbn in H. simplify_eq.
    etransitivity; [|apply scheduled_related].
    apply (update_related r s); [done|]. by apply resume_related.
  - destruct (Music.objects m !! r) as [s|] eqn:Hs; [|done]. cbn in H.
    destruct (tick s) as [s'|] eqn:Hx; [|done]. cbn in H. simplify_eq.
    apply (update_related r s); [done|]. by apply tick_related.
  - simplify_eq. apply preserves_on.
    pose proof preserves_player_ended. pose proof preserves_play_next_song.
    frame.
  - destruct (Music.scheduled m) as [|r rest]; [done|]. simplify_eq.
    etransitivity; [apply (scheduled_related rest)|].
    apply preserves_on, preserves_stop.
  - simplify_eq. apply preserves_cog_unload.
Qed.

Lemma run_related es m m' out :
  Music.run es m = Some (m', out) → world_related R m m'.
Proof.
  revert m out. induction es as [|e es IH]; cbn; intros m out H.
  - simplify_eq. reflexivity.
  - destruct (Music.step e m) as [[m1 o1]|] eqn:He; [|done]. cbn in H.
    destruct (Music.run es m1) as [[m2 o2]|] eqn:Hr; [|done]. cbn in H.
    simplify_eq. etransitivity; [by eapply step_related|by eapply IH].
Qed.

(** What holds of a newly constructed session and is kept along [R] holds
    of every session the bot ever has. *)
Lemma reachable_sessions (Inv : VoiceState.t → Prop) m r s :
  (∀ g, Inv (VoiceState.__init__ g)) →
  (∀ s s', R s s' → Inv s → Inv s') →
  reachable m → Music.objects m !! r = Some s → Inv s.
Proof.
  intros Hinit Hkeep (es & out & Hrun) Hs.
  destruct (run_related _ _ _ _ Hrun) as [_ Hb].
  destruct (Hb r s Hs) as (g & Hg); [done|]. by eapply Hkeep.
Qed.

End SessionFrame.

(** ** The registry *)

#[local] Instance same_ctx_preorder : PreOrder same_ctx.
Proof.
  split; [by intros s|]. intros s1 s2 s3 H12 H23.
  unfold same_ctx in *. congruence.
Qed.

Lemma get_hit g r m :
  Music.voice_states m !! g = Some r →
  Music.get_voice_state g m = (Returned r, m, []).
Proof. intros H. unfold Music.get_voice_state. munfold. cbn. by rewrite H. Qed.

Lemma get_miss g m :
  Music.voice_states m !! g = None →
  Music.get_voice_state g m =
    (Returned (length (Music.objects m)),
     Music.set_voice_states
       (<[g := length (Music.objects m)]> (Music.voice_states m))
       (Music.set_objects (Music.objects m ++ [VoiceState.__init__ g]) m),
     []).
Proof. intros H. unfold Music.get_voice_state. munfold. cbn. by rewrite H. Qed.

Lemma get_returns g m :
  ∃ r, value_of (Music.get_voice_state g m) = Returned r ∧
       Music.voice_states (state_of (Music.get_voice_state g m)) !! g = Some r.
Proof.
  destruct (Music.voice_states m !! g) as [r|] eqn:H.
  - exists r. by rewrite (get_hit _ _ _ H).
  - exists (length (Music.objects m)). rewrite (get_miss _ _ H).
    split; [done|]. cbn. apply lookup_insert_eq.
Qed.

Lemma get_wf g m :
  registry_wf m → registry_wf (state_of (Music.get_voice_state g m)).
Proof.
  intros Hwf. destruct (Music.voice_states m !! g) as [r|] eqn:H.
  - by rewrite (get_hit _ _ _ H).
  - rewrite (get_miss _ _ H). intros g' r' Hg'. cbn in *.
    destruct (decide (g' = g)) as [->|Hne].
    + rewrite lookup_insert_eq in Hg'. simplify_eq.
      exists (VoiceState.__init__ g). split; [|done].
      rewrite lookup_app_r by done. by rewrite Nat.sub_diag.
    + rewrite lookup_insert_ne in Hg' by done.
      destruct (Hwf g' r' Hg') as (s & Hs & Hc).
      exists s. split; [|done]. by apply lookup_app_l_Some.
Qed.

Lemma wf_related m m' :
  registry_wf m → sessions_related same_ctx m m' →
  (∀ g r, Music.voice_states m' !! g = Some r →
          Music.voice_states m !! g = Some r) →
  registry_wf m'.
Proof.
  intros Hwf Hrel Hsub g r Hg.
  destruct (Hwf g r (Hsub g r Hg)) as (s & Hs & Hc).
  destruct (Hrel r s Hs) as (s' & Hs' & HR).
  exists s'. split; [done|]. unfold same_ctx in HR. congruence.
Qed.

Lemma on_voice_states {A} r (c : M VoiceState.t A) m :
  Music.voice_states (state_of (Music.on r c m)) = Music.voice_states m ∧
  Music.scheduled (state_of (Music.on r c m)) = Music.scheduled m.
Proof.
  unfold Music.on, state_of. destruct (Music.objects m !! r) as [s|]; [|done].
  by destruct (c s) as [[??]?].
Qed.

Lemma leave_voice_states ctx m :
  Music.voice_states (state_of (Music._leave ctx m)) = Music.voice_states m ∨
  Music.voice_states (state_of (Music._leave ctx m)) =
    delete (Music.guild ctx) (Music.voice_states m).
Proof.
  unfold Music._leave, bind, mbind, M_bind.
  destruct (Music.objects m !! Music.voice_state ctx) as [s|] eqn:Hs.
  - rewrite (on_some _ _ _ _ Hs). cbn.
    set (m1 := Music.set_objects _ m).
    destruct (voice s); [|by left].
    destruct (on_voice_states (Music.voice_state ctx) stop m1) as [Hv _].
    unfold state_of in *.
    destruct (Music.on _ stop m1) as [[[[]|e] m2] o2]; cbn in *.
    + right. by rewrite Hv.
    + left. by rewrite Hv.
  - rewrite (on_none _ _ _ Hs). by left.
Qed.

Lemma callback_voice_states ctx c m :
  Music.voice_states (state_of (Music.callback ctx c m))
    = Music.voice_states m ∨
  Music.voice_states (state_of (Music.callback ctx c m)) =
    delete (Music.guild ctx) (Music.voice_states m).
Proof.
  destruct c; cbn; try (left; apply on_voice_states).
  apply leave_voice_states.
Qed.

(** The hook only reads. *)
Lemma before_invoke_pure g a c m :
  state_of (Music.before_invoke g a c m) = m.
Proof.
  symmetry. revert m. change (preserves eq (Music.before_invoke g a c)).
  unfold Music.before_invoke, Music.ensure_voice_state, Music.voice_client.
  frame.
Qed.

(** A command either stops at its hook, leaving the bot as it was, or
    runs its callback on the session that [get_voice_state] returns. *)
Lemma invoke_state g a c m :
  state_of (Music.invoke g a c m) = m ∨
  ∃ r, value_of (Music.get_voice_state g m) = Returned r ∧
       state_of (Music.invoke g a c m) =
         state_of (Music.callback
                     {| Music.guild := g; Music.author := a;
                        Music.voice_state := r |} c
                     (state_of (Music.get_voice_state g m))).
Proof.
  pose proof (before_invoke_pure g a c m) as Hb.
  destruct (get_returns g m) as (r & Hr & _).
  unfold Music.invoke, Music.cog_command_error. munfold.
  destruct (Music.before_invoke g a c m) as [[[[]|e] m0] o0];
    cbn in *; subst m0; [|by left].
  right. exists r. split; [done|].
  destruct (Music.get_voice_state g m) as [[v m1] o1]. cbn in *. subst v.
  destruct (Music.callback _ c m1) as [[[|e] m2] o2]; reflexivity.
Qed.

Lemma step_voice_states e m m' out :
  Music.step e m = Some (m', out) →
  match e with
  | Music.Invoke g a c =>
      let m1 := state_of (Music.get_voice_state g m) in
      Music.voice_states m' = Music.voice_states m ∨
      Music.voice_states m' = Music.voice_states m1 ∨
      Music.voice_states m' = delete g (Music.voice_states m1)
  | _ => Music.voice_states m' = Music.voice_states m
  end.
Proof.
  destruct e as [g a c|r|r|r error| |]; cbn; intros H.
  - simplify_eq. destruct (invoke_state g a c m) as [->|(r & _ & ->)].
    + by left.
    + right.
      apply (callback_voice_states
               {| Music.guild := g; Music.author := a;
                  Music.voice_state := r |}).
  - destruct (Music.objects m !! r) as [s|]; [|done]. cbn in H.
    destruct (resume s) as [x|]; [|done]. cbn in H. by simplify_eq.
  - destruct (Music.objects m !! r) as [s|]; [|done]. cbn in H.
    destruct (tick s) as [s'|]; [|done]. cbn in H. by simplify_eq.
  - simplify_eq. apply on_voice_states.
  - destruct (Music.scheduled m) as [|r rest]; [done|]. simplify_eq.
    apply (on_voice_states r stop (Music.set_scheduled rest m)).
  - by simplify_eq.
Qed.

Lemma step_wf e m m' out :
  Music.step e m = Some (m', out) → registry_wf m → registry_wf m'.
Proof.
  intros Hstep Hwf.
  assert (Hrel : ∀ m0 m1 e0 o, Music.step e0 m0 = Some (m1, o) →
                               world_related same_ctx m0 m1).
  { intros m0 m1 e0 o. by apply (step_related same_ctx). }
  pose proof (step_voice_states _ _ _ _ Hstep) as Hvs.
  destruct e as [g a c|r|r|r error| |];
    try (eapply wf_related; [done|by eapply Hrel|by rewrite Hvs]).
  cbn in Hstep. simplify_eq.
  destruct (invoke_state g a c m) as [Hst|(r & _ & Hst)];
    rewrite Hst in *; [done|].
  set (m1 := state_of (Music.get_voice_state g m)) in *.
  eapply (wf_related m1); [by apply get_wf| |].
  - apply (preserves_callback same_ctx); done.
  - intros g' r'.
    destruct (callback_voice_states
                {| Music.guild := g; Music.author := a;
                   Music.voice_state := r |} c m1) as [-> | ->]; [done|].
    intros [_ H]%lookup_delete_Some. done.
Qed.

Lemma run_wf es m m' out :
  Music.run es m = Some (m', out) → registry_wf m → registry_wf m'.
Proof.
  revert m out. induction es as [|e es IH]; cbn; intros m out H Hwf.
  - by simplify_eq.
  - destruct (Music.step e m) as [[m1 o1]|] eqn:He; [|done]. cbn in H.
    destruct (Music.run es m1) as [[m2 o2]|] eqn:Hr; [|done]. cbn in H.
    simplify_eq. eapply IH; [done|]. by eapply step_wf.
Qed.

Lemma reachable_wf m : reachable m → registry_wf m.
Proof.
  intros (es & out & H). eapply run_wf; [done|].
  intros g r Hg. cbn in Hg. by rewrite lookup_empty in Hg.
Qed.

(** The registry is a dictionary: a guild has an entry or none. *)
Lemma stored_for_lookup g m :
  stored_for g m =
    match Music.voice_states m !! g with Some _ => 1%nat | None => 0%nat end.
Proof.
  unfold stored_for. generalize (Music.voice_states m). intros d.
  induction d as [|k r d Hk Hfirst IH] using map_first_key_ind.
  - by rewrite map_to_list_empty, lookup_empty.
  - rewrite map_to_list_insert_first_key by done. rewrite filter_cons. cbn.
    destruct (decide (k = g)) as [->|Hne].
    + rewrite lookup_insert_eq. rewrite Hk in IH. cbn. by rewrite IH.
    + by rewrite lookup_insert_ne.
Qed.

(** No guild shares its session with another one. *)
Lemma registry_injective m g1 g2 r :
  registry_wf m →
  Music.voice_states m !! g1 = Some r → Music.voice_states m !! g2 = Some r →
  g1 = g2.
Proof.
  intros Hwf H1 H2.
  destruct (Hwf _ _ H1) as (s1 & Hs1 & <-).
  destruct (Hwf _ _ H2) as (s2 & Hs2 & <-). congruence.
Qed.

(** C9: after any sequence of events, the registry holds at most one
    session per guild and every entry leads to the session created for
    that guild; [get_voice_state] returns the stored session and changes
    nothing when the guild has one, and otherwise constructs exactly one
    new session, whose task is ready to run, stores it under the guild and
    returns it. *)
Theorem C9_registry (es : list Music.Event) (m : Music.t)
    (out : list Effect) (g : Z) :
  Music.run es Music.__init__ = Some (m, out) →
  (stored_for g m ≤ 1)%nat ∧
  registry_wf m ∧
  match Music.voice_states m !! g with
  | Some r => Music.get_voice_state g m = (Returned r, m, [])
  | None =>
      let x := Music.get_voice_state g m in
      let r := length (Music.objects m) in
      value_of x = Returned r ∧
      output_of x = [] ∧
      Music.objects (state_of x) =
        Music.objects m ++ [VoiceState.__init__ g] ∧
      Music.voice_states (state_of x) = <[g := r]> (Music.voice_states m) ∧
      stored_for g (state_of x) = 1%nat ∧
      is_Some (VoiceState.resume (VoiceState.__init__ g))
  end.
Proof.
  intros Hrun. split_and!.
  - rewrite stored_for_lookup. destruct (_ !! g); lia.
  - apply reachable_wf. by exists es, out.
  - destruct (Music.voice_states m !! g) as [r|] eqn:Hg.
    + by apply get_hit.
    + cbn. rewrite stored_for_lookup, (get_miss _ _ Hg). cbn.
      rewrite lookup_insert_eq. split_and!; try done.
Qed.

Lemma C9_registry_witness :
  ∃ m out,
    Music.run sample_events Music.__init__ = Some (m, out) ∧
    (stored_for 1 m ≤ 1)%nat ∧ registry_wf m.
Proof.
  destruct (Music.run sample_events Music.__init__) as [[m out]|] eqn:H.
  - exists m, out. split; [reflexivity|].
    destruct (C9_registry sample_events m out 1 H) as (H1 & H2 & _).
    by split.
  - vm_compute in H. discriminate.
Defined.

(** ** The current song is never cleared *)

#[local] Instance keeps_current_preorder : PreOrder keeps_current.
Proof.
  split; [intros s H; exact H|].
  intros s1 s2 s3 H12 H23 H. apply H23, H12, H.
Qed.

Lemma current_stays_set es m m' out r s :
  Music.run es m = Some (m', out) →
  Music.objects m !! r = Some s → is_Some (current s) →
  ∃ s', Music.objects m' !! r = Some s' ∧ is_Some (current s').
Proof.
  intros Hrun Hs Hc.
  assert (Hrel : world_related keeps_current m m').
  { apply (run_related keeps_current) with es out; try done;
      intros; unfold keeps_current; cbn; eauto. }
  destruct Hrel as [Hrel _]. destruct (Hrel r s Hs) as (s' & Hs' & HR).
  exists s'. split; [done|]. by apply HR.
Qed.

(** When the last track ends with the loop flag off and nothing queued,
    the task comes to rest in [songs.get()] with [current] as it was. *)
Lemma idle_after_last_track s :
  audio_player s = InNextWait → _loop s = false → songs s = [] →
  ∃ s2 out,
    resumes 2 (state_of (completion None s)) = Some (s2, out) ∧
    audio_player s2 = InGet 0 ∧
    current s2 = current s ∧
    voice s2 = (set_player NoPlayer <$> voice s) ∧
    out = [].
Proof.
  intros Ht Hl Hq. destruct s as [ctx cur vc nxt q lp vol votes tsk].
  cbn in *. subst. eexists _, _. split; [reflexivity|]. done.
Qed.

(** While the task rests there with a client attached, the commands gated
    on [is_playing] go through. *)
Lemma idle_commands_accepted s w v :
  audio_player s = InGet w → is_Some (current s) →
  player <$> voice s = Some NoPlayer → 0 ≤ v ≤ 100 →
  is_playing s = true ∧
  state_of (Music._volume v s) = set_volume (v # 100)%Q s ∧
  state_of (Music._loop s) = set_loop (negb (_loop s)) s ∧
  Music._skip s =
    (Returned tt, state_of (skip s), [AddReaction NextTrack; Sink SStop]).
Proof.
  intros Ht [c Hc] Hv Hr.
  assert (Hp : is_playing s = true).
  { unfold is_playing. rewrite Hc. by destruct (voice s). }
  split_and!; [done| | |].
  - by rewrite volume_playing.
  - unfold Music._loop. munfold. by rewrite Hp.
  - rewrite skip_command_playing, skip_playing by done.
    unfold skip, voice_stop, the_voice. munfold.
    session_cases s; done.
Qed.

(** C10: no event ever clears [current]: a session whose slot is set keeps
    it set through every sequence of events.  So when the last track has
    finished, the task rests in the dequeue wait with the slot still set,
    and there, with a client attached that renders nothing, [is_playing]
    is true and [volume], [loop] and [skip] are accepted. *)
Theorem C10_current_never_cleared :
  (∀ es m m' out r s,
     Music.run es m = Some (m', out) →
     Music.objects m !! r = Some s → is_Some (current s) →
     ∃ s', Music.objects m' !! r = Some s' ∧ is_Some (current s')) ∧
  (∀ s,
     audio_player s = InNextWait → _loop s = false → songs s = [] →
     ∃ s2 out,
       resumes 2 (state_of (completion None s)) = Some (s2, out) ∧
       audio_player s2 = InGet 0 ∧
       current s2 = current s ∧
       voice s2 = (set_player NoPlayer <$> voice s) ∧
       out = []) ∧
  (∀ s w v,
     audio_player s = InGet w → is_Some (current s) →
     player <$> voice s = Some NoPlayer → 0 ≤ v ≤ 100 →
     is_playing s = true ∧
     state_of (Music._volume v s) = set_volume (v # 100)%Q s ∧
     state_of (Music._loop s) = set_loop (negb (_loop s)) s ∧
     Music._skip s =
       (Returned tt, state_of (skip s),
        [AddReaction NextTrack; Sink SStop])).
Proof.
  split_and!.
  - apply current_stays_set.
  - apply idle_after_last_track.
  - apply idle_commands_accepted.
Qed.

Lemma C10_current_never_cleared_witness :
  (∃ m' out s',
     Music.run [Music.After 0 None; Music.Wake 0; Music.Wake 0; Music.Tick 0]
       (world_of last_track_session) = Some (m', out) ∧
     Music.objects m' !! 0%nat = Some s' ∧ is_Some (current s')) ∧
  is_playing (idle_session 5) = true.
Proof.
  destruct C10_current_never_cleared as (H1 & _ & H3). split.
  - destruct (Music.run _ (world_of last_track_session))
      as [[m' out]|] eqn:Hrun.
    + destruct (H1 _ _ _ _ 0%nat last_track_session Hrun) as (s' & Hs' & Hc).
      * reflexivity.
      * by exists song_a.
      * by exists m', out, s'.
    + vm_compute in Hrun. discriminate.
  - apply (H3 (idle_session 5) 5%nat 30).
    + reflexivity.
    + by exists song_a.
    + reflexivity.
    + lia.
Defined.

(** ** One iteration of the playback loop *)

#[local] Instance keeps_queue_preorder : PreOrder keeps_queue.
Proof.
  split; [by intros s|]. intros s1 s2 s3 [H1 H2] [H3 H4].
  unfold keeps_queue in *. split; congruence.
Qed.





Lemma resume_at_top s :
  audio_player s = AtTop →
  resume s =
    Some (if _loop s then play_then_wait (set_next false s)
          else match songs s with
               | c :: rest => got c rest (set_next false s)
               | [] => (Returned tt,
                        set_audio_player (InGet 0) (set_next false s), [])
               end).
Proof.
  intros Ht. unfold resume. rewrite Ht. f_equal. munfold. cbn. unfold loop.
  destruct (_loop s); cbn.
  - by destruct (play_then_wait _) as [[??]?].
  - destruct (songs s); [done|]. by destruct (got _ _ _) as [[??]?].
Qed.

Lemma resume_in_get s w :
  audio_player s = InGet w →
  resume s =
    match songs s with
    | c :: rest => Some (got c rest s)
    | [] => if bool_decide (w = idle_timeout) then Some (timed_out s)
            else None
    end.
Proof. intros Ht. unfold resume. by rewrite Ht. Qed.


#[local] Instance keeps_loop_flag_preorder : PreOrder keeps_loop_flag.
Proof.
  split; [by intros s|]. intros s1 s2 s3 H12 H23.
  unfold keeps_loop_flag in *. congruence.
Qed.




(** ** Idle timeout *)

Lemma run_app es1 es2 m :
  Music.run (es1 ++ es2) m =
    match Music.run es1 m with
    | Some (m1, o1) =>
        match Music.run es2 m1 with
        | Some (m2, o2) => Some (m2, o1 ++ o2)
        | None => None
        end
    | None => None
    end.
Proof.
  revert m. induction es1 as [|e es1 IH]; intros m; cbn.
  - by destruct (Music.run es2 m) as [[??]|].
  - destruct (Music.step e m) as [[m1 o1]|]; cbn; [|done]. rewrite IH.
    destruct (Music.run es1 m1) as [[m2 o2]|]; cbn; [|done].
    destruct (Music.run es2 m2) as [[m3 o3]|]; cbn; [|done].
    by rewrite app_assoc.
Qed.

(** Seconds pass for a session waiting in [songs.get()]. *)
Lemma run_ticks n r m s w :
  Music.objects m !! r = Some s → audio_player s = InGet w →
  (w + n ≤ idle_timeout)%nat →
  Music.run (replicate n (Music.Tick r)) m =
    Some (Music.set_objects
            (<[r := set_audio_player (InGet (w + n)) s]> (Music.objects m)) m,
          []).
Proof.
  revert m s w. induction n as [|n IH]; intros m s w Hs Ht Hw; cbn.
  - rewrite Nat.add_0_r. do 2 f_equal.
    replace (set_audio_player (InGet w) s) with s
      by (destruct s; cbn in *; by subst).
    rewrite list_insert_id by done. by destruct m.
  - rewrite Hs. cbn. unfold tick. rewrite Ht.
    rewrite bool_decide_eq_true_2 by lia. cbn.
    pose proof (lookup_lt_Some _ _ _ Hs) as Hlt.
    rewrite (IH _ (set_audio_player (InGet (S w)) s) (S w)); cbn.
    + rewrite list_insert_insert_eq.
      by replace (w + S n)%nat with (S w + n)%nat by lia.
    + by rewrite list_lookup_insert_eq.
    + done.
    + lia.
Qed.

(** Events other than commands leave the registry alone. *)
Lemma run_voice_states es m m' out :
  Forall (λ e, ∀ g a c, e ≠ Music.Invoke g a c) es →
  Music.run es m = Some (m', out) →
  Music.voice_states m' = Music.voice_states m.
Proof.
  intros Hes. revert m out. induction Hes as [|e es He _ IH]; cbn;
    intros m out H.
  - by simplify_eq.
  - destruct (Music.step e m) as [[m1 o1]|] eqn:Hstep; [|done]. cbn in H.
    destruct (Music.run es m1) as [[m2 o2]|] eqn:Hr; [|done]. cbn in H.
    simplify_eq. rewrite (IH _ _ Hr).
    pose proof (step_voice_states _ _ _ _ Hstep) as Hvs.
    destruct e; try done. by destruct (He g a c).
Qed.

(** The timeout of the wait, served: teardown is scheduled once and the
    task is back at the top of its loop. *)
Lemma resume_timed_out s :
  audio_player s = InGet idle_timeout → songs s = [] →
  resume s =
    Some (Returned tt, set_audio_player AtTop s,
          [CreateTaskStop; Stdout "Player timed out."]).
Proof.
  intros Ht Hq. rewrite (resume_in_get _ _ Ht), Hq.
  by rewrite bool_decide_eq_true_2.
Qed.

Lemma wake_step r m s x :
  Music.objects m !! r = Some s → resume s = Some x →
  Music.step (Music.Wake r) m =
    Some (Music.set_scheduled
            (Music.scheduled m ++ replicate (stops_initiated (output_of x)) r)
            (Music.set_objects (<[r := state_of x]> (Music.objects m)) m),
          output_of x).
Proof. intros Hs Hx. cbn. rewrite Hs. cbn. rewrite Hx. reflexivity. Qed.

(** An idle period, run: the seconds pass, the task wakes up on the
    timeout, schedules [stop()] and stands at the top of its loop. *)
Lemma run_idle_period r w m s :
  Music.objects m !! r = Some s →
  audio_player s = InGet w → (w ≤ idle_timeout)%nat → songs s = [] →
  Music.run (idle_period r w) m =
    Some (Music.set_scheduled (Music.scheduled m ++ [r])
            (Music.set_objects
               (<[r := set_audio_player AtTop s]> (Music.objects m)) m),
          [CreateTaskStop; Stdout "Player timed out."]).
Proof.
  intros Hs Ht Hw Hq.
  pose proof (lookup_lt_Some _ _ _ Hs) as Hlt.
  set (s1 := set_audio_player (InGet (w + (idle_timeout - w))) s).
  assert (Hx : resume s1 =
            Some (Returned tt, set_audio_player AtTop s,
                  [CreateTaskStop; Stdout "Player timed out."])).
  { rewrite resume_timed_out; subst s1; cbn; [done| |done].
    f_equal. unfold idle_timeout in *. lia. }
  unfold idle_period. rewrite run_app.
  rewrite (run_ticks _ r m s w) by (done || (unfold idle_timeout in *; lia)).
  fold s1. unfold Music.run.
  erewrite wake_step; [|by apply list_lookup_insert_eq|exact Hx].
  cbn. by rewrite list_insert_insert_eq.
Qed.

(** C1, amended: when a session waits for a song with the loop flag off
    and none is enqueued for 180 seconds, the task initiates teardown
    (schedules [stop()]) exactly once for that timeout and goes on with
    its next iteration, where it waits again; the registry is untouched
    and still returns that session for its guild. *)
Theorem C1_idle_timeout (m : Music.t) (g : Z) (r w : nat)
    (s : VoiceState.t) :
  Music.voice_states m !! g = Some r →
  Music.objects m !! r = Some s →
  audio_player s = InGet w → (w ≤ idle_timeout)%nat →
  _loop s = false → songs s = [] →
  ∃ m' out,
    Music.run (idle_period r w) m = Some (m', out) ∧
    stops_initiated out = 1%nat ∧
    Music.scheduled m' = Music.scheduled m ++ [r] ∧
    Music.objects m' !! r = Some (set_audio_player AtTop s) ∧
    resume (set_audio_player AtTop s) =
      Some (Returned tt, set_audio_player (InGet 0) (set_next false s), []) ∧
    Music.voice_states m' !! g = Some r ∧
    Music.get_voice_state g m' = (Returned r, m', []).
Proof.
  intros Hg Hs Ht Hw Hl Hq.
  pose proof (lookup_lt_Some _ _ _ Hs) as Hlt.
  eexists _, _. split; [by apply (run_idle_period r w m s)|].
  split_and!; [done|done| | |done|by apply get_hit].
  - cbn. by rewrite list_lookup_insert_eq.
  - rewrite resume_at_top by done. cbn. by rewrite Hl, Hq.
Qed.

Lemma C1_idle_timeout_witness :
  ∃ m' out,
    Music.run (idle_period 0 0) (world_of (idle_session 0)) = Some (m', out) ∧
    stops_initiated out = 1%nat ∧
    Music.objects m' !! 0%nat = Some (set_audio_player AtTop (idle_session 0)) ∧
    Music.voice_states m' !! 1 = Some 0%nat.
Proof.
  destruct (C1_idle_timeout (world_of (idle_session 0)) 1 0 0 (idle_session 0))
    as (m' & out & H1 & H2 & _ & H4 & _ & H6 & _);
    [reflexivity | reflexivity | reflexivity | unfold idle_timeout; lia
    | reflexivity | reflexivity |].
  exists m', out. split_and!; assumption.
Defined.

Lemma idle_period_no_command r w :
  Forall (λ e, ∀ g a c, e ≠ Music.Invoke g a c)
    (idle_period r w ++ [Music.RunStop]).
Proof.
  unfold idle_period. repeat (apply Forall_app; split).
  - by apply Forall_replicate.
  - by apply Forall_singleton.
  - by apply Forall_singleton.
Qed.

(** C1, as stated, fails: after an idle period and the scheduled [stop()],
    the task has not ended and the registry still returns the session;
    a second idle period initiates teardown a second time. *)
Lemma C1_idle_timeout_counterexample :
  ¬ idle_timeout_spec (world_of (idle_session 0)) 1 0 0 ∧
  ∃ m' out,
    Music.run (idle_period 0 0 ++ [Music.RunStop; Music.Wake 0] ++
               idle_period 0 0)
      (world_of (idle_session 0)) = Some (m', out) ∧
    stops_initiated out = 2%nat ∧
    Music.voice_states m' !! 1 = Some 0%nat ∧
    (audio_player <$> Music.objects m' !! 0%nat) = Some AtTop.
Proof.
  split.
  - intros H.
    destruct (Music.run (idle_period 0 0 ++ [Music.RunStop])
                (world_of (idle_session 0))) as [[m' out]|] eqn:Hrun.
    + destruct (H m' out Hrun) as (_ & _ & Hreg). apply Hreg.
      rewrite (run_voice_states _ _ _ _ (idle_period_no_command 0 0) Hrun).
      reflexivity.
    + vm_compute in Hrun. discriminate.
  - eexists _, _. split; [vm_compute; reflexivity|]. by vm_compute.
Qed.

(** ** Playback faults *)

#[local] Instance task_untouched_preorder : PreOrder task_untouched.
Proof.
  split; [by intros s|]. intros s1 s2 s3 [H1 H2] [H3 H4].
  unfold task_untouched in *. split; congruence.
Qed.

Lemma blocked_related s s' : task_untouched s s' → blocked s → blocked s'.
Proof. intros [H1 H2] [H3 H4]. unfold blocked. split; congruence. Qed.

(** A fault inside the [try] is caught and reported once, and the task
    goes to wait for the completion callback. *)
Lemma fault_caught_and_reported s e s1 o1 :
  play_current s = (Raised e, s1, o1) →
  play_then_wait s =
    (Returned tt, set_audio_player InNextWait s1,
     o1 ++ [Send "An error occurred while playing audio."; Stdout (str e)]).
Proof.
  intros H. unfold play_then_wait, report. munfold. rewrite H. cbn.
  by rewrite app_nil_r.
Qed.

(** A completion callback that is handed an error raises before it sets
    the event. *)
Lemma play_next_song_error s e :
  play_next_song (Some e) s = (Raised (VoiceError e), s, []).
Proof. reflexivity. Qed.

Lemma blocked_resume s : blocked s → resume s = None.
Proof. intros [Ht Hn]. unfold resume. by rewrite Ht, Hn. Qed.

Lemma completion_error_blocked s e :
  blocked s → blocked (state_of (completion (Some e) s)).
Proof. intros [Ht Hn]. by destruct s. Qed.

(** Nothing but a completion callback without error unblocks the task:
    commands, clock ticks, teardown and failed completions leave it
    blocked, and the task itself cannot run. *)
Lemma step_keeps_blocked e m m' out r s :
  Music.step e m = Some (m', out) → e ≠ Music.After r None →
  Music.objects m !! r = Some s → blocked s →
  ∃ s', Music.objects m' !! r = Some s' ∧ blocked s'.
Proof.
  intros Hstep Hne Hs Hb.
  pose proof (lookup_lt_Some _ _ _ Hs) as Hlt.
  assert (Hrel : world_related task_untouched m m' →
                 ∃ s', Music.objects m' !! r = Some s' ∧ blocked s').
  { intros [Hrel _]. destruct (Hrel r s Hs) as (s' & Hs' & HR).
    exists s'. split; [done|]. by eapply blocked_related. }
  destruct e as [g a c|r'|r'|r' error| |]; cbn in Hstep.
  - simplify_eq. apply Hrel.
    assert (Hp : preserves (world_related task_untouched)
                   (Music.invoke g a c)); [|apply Hp].
    apply preserves_invoke; [apply _|by intros..].
  - destruct (decide (r' = r)) as [->|Hr].
    + rewrite Hs in Hstep. cbn in Hstep.
      by rewrite (blocked_resume _ Hb) in Hstep.
    + destruct (Music.objects m !! r') as [s0|]; [|done]. cbn in Hstep.
      destruct (resume s0) as [x|]; [|done]. cbn in Hstep. simplify_eq.
      exists s. cbn. by rewrite list_lookup_insert_ne.
  - destruct (Music.objects m !! r') as [s0|] eqn:Hs0; [|done].
    cbn in Hstep. destruct (tick s0) as [s0'|] eqn:Htick; [|done].
    cbn in Hstep. simplify_eq. cbn.
    destruct (decide (r' = r)) as [->|Hr].
    + rewrite list_lookup_insert_eq by done. simplify_eq.
      destruct Hb as [Ht Hn]. unfold tick in Htick. rewrite Ht in Htick.
      simplify_eq. by exists s0'.
    + exists s. by rewrite list_lookup_insert_ne.
  - simplify_eq. destruct (decide (r' = r)) as [->|Hr].
    + destruct error as [e|]; [|done].
      rewrite (on_some _ _ _ _ Hs). cbn.
      rewrite list_lookup_insert_eq by done. eexists. split; [done|].
      by apply (completion_error_blocked s e).
    + destruct (Music.objects m !! r') as [s0|] eqn:Hs0.
      * rewrite (on_some _ _ _ _ Hs0). cbn. exists s.
        by rewrite list_lookup_insert_ne.
      * rewrite (on_none _ _ _ Hs0). by exists s.
  - destruct (Music.scheduled m) as [|r0 rest]; [done|]. simplify_eq.
    pose proof (world_related_preorder task_untouched) as Hpre.
    apply Hrel. etransitivity; [apply (scheduled_related _ rest)|].
    assert (Hp : preserves (world_related task_untouched)
                   (Music.on r0 stop)); [|apply Hp].
    apply preserves_on; [apply _|].
    apply preserves_stop; [apply _|by intros..].
  - simplify_eq. by exists s.
Qed.

(** X4: a task suspended in [next.wait()] with the event cleared stays
    there under every sequence of events without an error-free completion
    callback for its session: commands, ticks, teardowns and failed
    completions go through, and the task cannot be activated. *)
Lemma run_keeps_blocked es m m' out r s :
  Forall (λ e, e ≠ Music.After r None) es →
  Music.run es m = Some (m', out) →
  Music.objects m !! r = Some s → blocked s →
  ∃ s', Music.objects m' !! r = Some s' ∧ blocked s' ∧
        Music.step (Music.Wake r) m' = None.
Proof.
  intros Hes. revert m out s.
  induction Hes as [|e es He _ IH]; cbn; intros m out s H Hs Hb.
  - simplify_eq. exists s. split_and!; [done..|].
    cbn. rewrite Hs. cbn. by rewrite (blocked_resume _ Hb).
  - destruct (Music.step e m) as [[m1 o1]|] eqn:Hstep; [|done]. cbn in H.
    destruct (Music.run es m1) as [[m2 o2]|] eqn:Hr; [|done]. cbn in H.
    simplify_eq.
    destruct (step_keeps_blocked _ _ _ _ _ _ Hstep He Hs Hb)
      as (s1 & Hs1 & Hb1).
    by eapply IH.
Qed.

(** C2 at its failing input: the client reports an error for the track
    being played.  The callback raises without setting the event, nothing
    is reported to the room, and the task stays suspended in
    [next.wait()]: the song requested afterwards is queued and the task
    cannot be activated to play it. *)
Theorem C2_failed_completion_blocks_loop :
  play_next_song (Some "ffmpeg exited with code 1") playing_session =
    (Raised (VoiceError "ffmpeg exited with code 1"), playing_session, []) ∧
  ∃ m' s',
    Music.run failed_playback (world_of playing_session) =
      Some (m', [Send "Enqueued B"]) ∧
    Music.objects m' !! 0%nat = Some s' ∧
    audio_player s' = InNextWait ∧ next s' = false ∧
    songs s' = [song_b; song_b] ∧
    resume s' = None ∧
    Music.step (Music.Wake 0) m' = None.
Proof.
  split; [reflexivity|].
  eexists _, _. split; [vm_compute; reflexivity|]. by vm_compute.
Qed.

(** ** The vote set stays empty *)

#[local] Instance keeps_no_votes_preorder : PreOrder keeps_no_votes.
Proof.
  split; [intros s H; exact H|].
  intros s1 s2 s3 H12 H23 H. apply H23, H12, H.
Qed.

(** X20: votes are never recorded: every session the bot ever has
    carries an empty vote set, so the command [skip] leaves it empty as well when it
    answers that nothing is playing. *)
Lemma skip_votes_always_empty m r s :
  reachable m → Music.objects m !! r = Some s →
  skip_votes s = ∅ ∧ skip_votes (state_of (Music._skip s)) = ∅.
Proof.
  intros Hm Hs.
  assert (Hv : skip_votes s = ∅).
  { apply (reachable_sessions keeps_no_votes)
      with (Inv := λ s, skip_votes s = ∅) (m := m) (r := r);
      try done; try apply _;
      try (by intros; unfold keeps_no_votes; cbn; intros). }
  split; [done|]. destruct (is_playing s) eqn:Hp.
  - rewrite skip_command_playing by done. apply skip_clears.
  - by rewrite skip_command_not_playing.
Qed.

(** * Further properties of the commands *)

(** ** Teardown *)

(** X2: [VoiceState.stop] leaves the session without client and with an
    empty queue, and running it again changes nothing and calls nothing:
    the scheduled teardowns of successive idle timeouts, or a teardown
    after [leave], are harmless. *)
Theorem stop_idempotent (s : VoiceState.t) :
  voice (state_of (stop s)) = None ∧
  songs (state_of (stop s)) = [] ∧
  stop (state_of (stop s)) = (Returned tt, state_of (stop s), []).
Proof.
  rewrite stop_tears_down. destruct s as [? ? [vc|] ? ? ? ? ? ?]; done.
Qed.

(** ** The loop command *)

(** X7: on a playing session [loop] flips the flag and nothing else, so
    two of them in a row give the session back as it was; on a session
    that is not playing it only answers. *)
Theorem loop_toggle (s : VoiceState.t) :
  (is_playing s = true →
     Music._loop s =
       (Returned tt, set_loop (negb (_loop s)) s, [AddReaction CheckMark]) ∧
     state_of (Music._loop (state_of (Music._loop s))) = s) ∧
  (is_playing s = false →
     Music._loop s =
       (Returned tt, s, [Send "Nothing being played at the moment."])).
Proof.
  split; intros Hp.
  - assert (H1 : ∀ s0, is_playing s0 = true →
              Music._loop s0 =
                (Returned tt, set_loop (negb (_loop s0)) s0,
                 [AddReaction CheckMark])).
    { intros s0 H0. unfold Music._loop. munfold. by rewrite H0. }
    rewrite (H1 s Hp). split; [done|]. unfold state_of; cbn.
    rewrite H1 by (destruct s; exact Hp). cbn.
    destruct s; cbn. by rewrite negb_involutive.
  - unfold Music._loop. munfold. by rewrite Hp.
Qed.

Lemma loop_toggle_witness :
  state_of (Music._loop (state_of (Music._loop playing_session))) =
    playing_session ∧
  state_of (Music._loop fresh_session) = fresh_session.
Proof.
  destruct (loop_toggle playing_session) as [H1 _].
  destruct (loop_toggle fresh_session) as [_ H2].
  split.
  - apply H1. reflexivity.
  - rewrite H2; reflexivity.
Defined.

(** ** Requests *)

Lemma enqueue_all_run l s :
  Music.enqueue_all l s =
    (Returned tt, set_songs (songs s ++ resolved_songs l) s,
     enqueue_reports l).
Proof.
  revert s. induction l as [|x l IH]; intros s; cbn.
  - rewrite app_nil_r. by destruct s.
  - unfold Music.enqueue. munfold.
    destruct x as [e|song]; cbn; rewrite IH; cbn.
    + done.
    + unfold SongQueue.put. rewrite <- app_assoc. by destruct s.
Qed.

(** X10: [play] on a connected session appends the resolved song to the
    end of the queue and changes nothing else; when resolution fails the
    session is untouched.  On a session without client the bot joins the
    author's channel first, and stays there even when resolution fails. *)
Theorem play_enqueues (s : VoiceState.t) (a : option Z) (song : Song)
    (e : string) :
  (is_Some (voice s) →
     Music._play a (inr song) s =
       (Returned tt, set_songs (songs s ++ [song]) s,
        [Send ("Enqueued " +:+ title song)]) ∧
     Music._play a (inl e) s =
       (Returned tt, s,
        [Send ("An error occurred while processing this request: " +:+ e)])) ∧
  (∀ ch, voice s = None →
     Music._play (Some ch) (inl e) s =
       (Returned tt,
        set_voice (Some {| channel := ch; player := NoPlayer |}) s,
        [Sink (SConnect ch);
         Send ("An error occurred while processing this request: " +:+ e)])).
Proof.
  unfold Music._play, Music.join_if_needed, Music._join, Music.enqueue.
  munfold. split.
  - intros [vc Hv]. destruct s; cbn in *; by subst.
  - intros ch Hv. destruct s; cbn in *; by subst.
Qed.

Lemma play_enqueues_witness :
  songs (state_of (Music._play (Some 7) (inr song_c) playing_session)) =
    [song_b; song_c] ∧
  voice (state_of (Music._play (Some 9) (inl "no results") fresh_session)) =
    Some {| channel := 9; player := NoPlayer |}.
Proof.
  destruct (play_enqueues playing_session (Some 7) song_c "") as [H1 _].
  destruct (play_enqueues fresh_session None song_c "no results") as [_ H2].
  split.
  - destruct H1 as [H _]; [by eexists|]. by rewrite H.
  - rewrite (H2 9); reflexivity.
Defined.

(** X8: [playpl] empties the queue and stops the current track before it
    looks the playlist up: on a connected session a name that does not
    exist still costs the queue and the track, and only then is
    answered. *)
Theorem play_playlist_unknown (s : VoiceState.t) (a : option Z) :
  is_Some (voice s) →
  let r := Music._play_playlist a None s in
  value_of r = Returned tt ∧
  songs (state_of r) = [] ∧
  output_of r =
    (if is_playing s then [Sink SStop] else []) ++
    [Send "Playlist does not exist."] ∧
  current (state_of r) = current s.
Proof.
  intros [vc Hv]. unfold Music._play_playlist, voice_stop, the_voice.
  munfold. unfold is_playing.
  destruct s as [? cur ? ? ? ? ? ? ?]; cbn in *; subst.
  by destruct cur.
Qed.

Lemma play_playlist_unknown_witness :
  songs (state_of (Music._play_playlist (Some 7) None playing_session)) = [] ∧
  output_of (Music._play_playlist (Some 7) None playing_session) =
    [Sink SStop; Send "Playlist does not exist."].
Proof.
  destruct (play_playlist_unknown playing_session (Some 7)) as (_ & H1 & H2 & _).
  - by eexists.
  - by split.
Defined.

(** X9: [playpl] with a playlist that exists replaces the queue of a
    connected session by the songs of the playlist that resolve, in the
    order of the playlist; entries that do not resolve are reported and
    skipped.  On a session without client, an author who is in no voice
    channel makes it raise before anything is queued. *)
Theorem play_playlist_replaces_queue (s : VoiceState.t) (a : option Z)
    (entries : list (string + Song)) :
  (is_Some (voice s) →
     let r := Music._play_playlist a (Some entries) s in
     value_of r = Returned tt ∧
     songs (state_of r) = resolved_songs entries ∧
     output_of r =
       (if is_playing s then [Sink SStop] else []) ++
       enqueue_reports entries ++
       [AddReaction CheckMark; Send "Playlist added to queue."]) ∧
  (voice s = None →
     Music._play_playlist None (Some entries) s =
       (Raised AttributeError, s, [])).
Proof.
  unfold Music._play_playlist, Music.join_if_needed, Music._join, voice_stop,
    the_voice.
  munfold. unfold is_playing. split.
  - intros [vc Hv]. destruct s as [? cur ? ? ? ? ? ? ?]; cbn in *; subst.
    destruct cur; cbn; rewrite enqueue_all_run; cbn; by rewrite ?app_nil_r.
  - intros Hv. destruct s; cbn in *; by subst.
Qed.

Lemma play_playlist_replaces_queue_witness :
  songs (state_of (Music._play_playlist (Some 7) (Some sample_playlist)
                     playing_session)) = [song_b; song_c] ∧
  Music._play_playlist None (Some sample_playlist) fresh_session =
    (Raised AttributeError, fresh_session, []).
Proof.
  destruct (play_playlist_replaces_queue playing_session (Some 7)
              sample_playlist) as [H1 _].
  destruct (play_playlist_replaces_queue fresh_session None
              sample_playlist) as [_ H2].
  split.
  - destruct H1 as (_ & H & _); [by eexists|]. by rewrite H.
  - apply H2. reflexivity.
Defined.

(** ** Volume and the next track *)

(** X6: [volume] calls nothing on the voice client, so the track being
    rendered keeps the volume it was started with; the stored value is
    the one handed to the client with the next track, be it the next song
    of the queue or, with the loop flag set, the current song again. *)
Theorem volume_applies_to_next_track (s : VoiceState.t) (v : Z) :
  audio_player s = InNextWait → is_playing s = true → 0 ≤ v ≤ 100 →
  let s1 := state_of (Music._volume v s) in
  sink_calls (output_of (Music._volume v s)) = [] ∧
  voice s1 = voice s ∧
  (∀ c rest, _loop s = false → songs s = c :: rest →
     resumes 2 (state_of (completion None s1)) =
       Some (set_audio_player InNextWait
               (set_voice (set_player Rendering <$> voice s)
                  (set_current (Some c)
                     (set_songs rest (set_next false s1)))),
             [Sink (SPlay c (v # 100)%Q); SendEmbed c])) ∧
  (∀ c, _loop s = true → current s = Some c →
     resumes 2 (state_of (completion None s1)) =
       Some (set_audio_player InNextWait
               (set_voice (set_player Rendering <$> voice s)
                  (set_next false s1)),
             [Sink (SPlay c (v # 100)%Q); SendEmbed c])).
Proof.
  intros Ht Hp Hv. cbn. rewrite (volume_playing _ _ Hp).
  unfold state_of; cbn. split_and!; [done|done| |].
  - intros c rest Hl Hq. session_cases s; simplify_eq. reflexivity.
  - intros c Hl Hc. session_cases s; simplify_eq. reflexivity.
Qed.

Lemma volume_applies_to_next_track_witness :
  ∃ s2,
    resumes 2 (state_of (completion None
                           (state_of (Music._volume 40 playing_session)))) =
      Some (s2, [Sink (SPlay song_b (40 # 100)%Q); SendEmbed song_b]).
Proof.
  destruct (volume_applies_to_next_track playing_session 40)
    as (_ & _ & H & _); [reflexivity | reflexivity | lia |].
  eexists. apply (H song_b []); reflexivity.
Defined.

(** ** Commands and the registry *)

(** A command whose hook passes, in a guild that has a session, is its
    callback on that session, with [cog_command_error] as handler. *)
Lemma invoke_registered g a c m r :
  Music.voice_states m !! g = Some r →
  Music.before_invoke g a c m = (Returned tt, m, []) →
  Music.invoke g a c m =
    try_except
      (Music.callback
         {| Music.guild := g; Music.author := a; Music.voice_state := r |} c)
      Music.cog_command_error m.
Proof.
  intros Hg Hb. unfold Music.invoke, try_except. munfold.
  rewrite Hb, (get_hit _ _ _ Hg). cbn.
  by destruct (Music.callback _ c m) as [[[[]|e] m1] o1].
Qed.

(** What the hook sees as [ctx.voice_client]. *)
Lemma voice_client_registered g m r s :
  Music.voice_states m !! g = Some r → Music.objects m !! r = Some s →
  Music.voice_client g m = (Returned (voice s), m, []).
Proof.
  intros Hg Hs. unfold Music.voice_client, gets. by rewrite Hg; cbn; rewrite Hs.
Qed.

Lemma on_same {A} r (c : M VoiceState.t A) m s v out :
  Music.objects m !! r = Some s → c s = (v, s, out) →
  Music.on r c m = (v, m, out).
Proof.
  intros Hs Hc. rewrite (on_some _ _ _ _ Hs), Hc. cbn.
  rewrite list_insert_id by done. by destruct m.
Qed.

(** X16: [join] and [play] from an author who sits in another voice
    channel than the bot are refused by the hook, and nothing happens;
    so [join] on a connected session only ever reaches [move_to] with the
    channel the bot is in already, and leaves the session as it is. *)
Theorem other_channel_refused (m : Music.t) (g : Z) (r : nat)
    (s : VoiceState.t) (vc : VoiceClient) (ch : Z) (x : string + Song) :
  Music.voice_states m !! g = Some r → Music.objects m !! r = Some s →
  voice s = Some vc →
  (channel vc ≠ ch →
     Music.invoke g (Some ch) Music.Join m =
       (Returned tt, m,
        [Send "An error occurred: Bot is already in a voice channel."]) ∧
     Music.invoke g (Some ch) (Music.Play x) m =
       (Returned tt, m,
        [Send "An error occurred: Bot is already in a voice channel."])) ∧
  (channel vc = ch →
     Music.invoke g (Some ch) Music.Join m =
       (Returned tt, m, [Sink (SMoveTo ch)])).
Proof.
  intros Hg Hs Hv. split.
  - intros Hne.
    assert (Hb : ∀ c, Music.before_invoke g (Some ch) c m =
               match c with
               | Music.Join | Music.Play _ =>
                   (Raised (CommandError "Bot is already in a voice channel."),
                    m, [])
               | _ => (Returned tt, m, [])
               end).
    { intros c. destruct c; try reflexivity; cbn;
        unfold Music.ensure_voice_state, bind, mbind, M_bind;
        rewrite (voice_client_registered _ _ _ _ Hg Hs), Hv; cbn;
        by rewrite bool_decide_eq_true_2. }
    unfold Music.invoke, try_except. munfold. by rewrite !Hb.
  - intros <-. rewrite (invoke_registered _ _ _ _ r Hg).
    + unfold try_except. cbn.
      rewrite (on_same r _ m s (Returned tt) [Sink (SMoveTo (channel vc))] Hs);
        [done|].
      unfold Music._join. munfold.
      destruct s as [? ? v ? ? ? ? ? ?], vc; cbn in *. by subst.
    + cbn. unfold Music.ensure_voice_state, bind, mbind, M_bind.
      rewrite (voice_client_registered _ _ _ _ Hg Hs), Hv. cbn.
      by rewrite bool_decide_eq_false_2 by (intros H; by apply H).
Qed.

Lemma other_channel_refused_witness :
  Music.invoke 1 (Some 8) Music.Join (world_of playing_session) =
    (Returned tt, world_of playing_session,
     [Send "An error occurred: Bot is already in a voice channel."]) ∧
  Music.invoke 1 (Some 7) Music.Join (world_of playing_session) =
    (Returned tt, world_of playing_session, [Sink (SMoveTo 7)]).
Proof.
  destruct (other_channel_refused (world_of playing_session) 1 0
              playing_session {| channel := 7; player := Rendering |} 8
              (inr song_a)) as [H1 _]; [reflexivity..|].
  destruct (other_channel_refused (world_of playing_session) 1 0
              playing_session {| channel := 7; player := Rendering |} 7
              (inr song_a)) as [_ H2]; [reflexivity..|].
  split.
  - apply H1. discriminate.
  - apply H2. reflexivity.
Defined.

Lemma leave_run ctx m s :
  Music.objects m !! Music.voice_state ctx = Some s →
  Music._leave ctx m =
    match voice s with
    | None => (Returned tt, m, [Send "Not connected to any voice channel."])
    | Some _ =>
        (Returned tt,
         Music.set_voice_states
           (delete (Music.guild ctx) (Music.voice_states m))
           (Music.set_objects
              (<[Music.voice_state ctx := set_voice None (set_songs [] s)]>
                 (Music.objects m)) m),
         [Sink SDisconnect])
    end.
Proof.
  intros Hs. unfold Music._leave, bind, mbind, M_bind.
  rewrite (on_same _ _ m s (Returned (voice s)) [] Hs) by done.
  destruct (voice s) as [vc|] eqn:Hv; [|done].
  rewrite (on_some _ _ _ _ Hs), stop_tears_down, Hv. reflexivity.
Qed.

(** X3: [leave] in a guild whose session has no voice client only
    answers.  With a client it empties the queue, disconnects and removes
    the session from the registry, and the next command of the guild gets
    a newly constructed session: volume, loop flag and current song of the
    old one are gone. *)
Theorem leave_forgets_session (m : Music.t) (g : Z) (a : option Z)
    (r : nat) (s : VoiceState.t) :
  Music.voice_states m !! g = Some r → Music.objects m !! r = Some s →
  (voice s = None →
     Music.invoke g a Music.Leave m =
       (Returned tt, m, [Send "Not connected to any voice channel."])) ∧
  (is_Some (voice s) →
     let m' := state_of (Music.invoke g a Music.Leave m) in
     output_of (Music.invoke g a Music.Leave m) = [Sink SDisconnect] ∧
     Music.voice_states m' = delete g (Music.voice_states m) ∧
     Music.objects m' = <[r := set_voice None (set_songs [] s)]> (Music.objects m) ∧
     value_of (Music.get_voice_state g m') = Returned (length (Music.objects m)) ∧
     Music.objects (state_of (Music.get_voice_state g m'))
       !! length (Music.objects m) = Some (VoiceState.__init__ g)).
Proof.
  intros Hg Hs.
  set (ctx := {| Music.guild := g; Music.author := a;
                 Music.voice_state := r |}).
  assert (Hi : Music.invoke g a Music.Leave m = Music._leave ctx m).
  { rewrite (invoke_registered _ _ _ _ r Hg) by done.
    unfold try_except. cbn. fold ctx. rewrite (leave_run ctx m s Hs).
    by destruct (voice s). }
  rewrite Hi, (leave_run ctx m s Hs). cbn. split.
  - by intros ->.
  - intros [vc ->]. cbn. split_and!; [done..| |].
    + rewrite get_miss by (cbn; apply lookup_delete_eq). cbn.
      by rewrite length_insert.
    + rewrite get_miss by (cbn; apply lookup_delete_eq). cbn.
      rewrite lookup_app_r; rewrite length_insert; [|done].
      by rewrite Nat.sub_diag.
Qed.

Lemma leave_forgets_session_witness :
  Music.invoke 1 None Music.Leave (world_of fresh_session) =
    (Returned tt, world_of fresh_session,
     [Send "Not connected to any voice channel."]) ∧
  Music.voice_states
    (state_of (Music.invoke 1 None Music.Leave (world_of playing_session)))
  = delete 1 (Music.voice_states (world_of playing_session)).
Proof.
  destruct (leave_forgets_session (world_of fresh_session) 1 None 0
              fresh_session) as [H1 _]; [reflexivity..|].
  destruct (leave_forgets_session (world_of playing_session) 1 None 0
              playing_session) as [_ H2]; [reflexivity..|].
  split.
  - apply H1. reflexivity.
  - destruct H2 as (_ & H & _); [by eexists|]. exact H.
Defined.

(** ** Sessions do not interfere *)

Lemma on_other {A} r (c : M VoiceState.t A) m r' :
  r' ≠ r →
  Music.objects (state_of (Music.on r c m)) !! r' = Music.objects m !! r'.
Proof.
  intros Hne. destruct (Music.objects m !! r) as [s|] eqn:Hs.
  - rewrite (on_some _ _ _ _ Hs). cbn. by apply list_lookup_insert_ne.
  - by rewrite (on_none _ _ _ Hs).
Qed.

Lemma callback_other ctx c m r' :
  r' ≠ Music.voice_state ctx →
  Music.objects (state_of (Music.callback ctx c m)) !! r'
    = Music.objects m !! r'.
Proof.
  intros Hne. destruct c; cbn; try by apply on_other.
  destruct (Music.objects m !! Music.voice_state ctx) as [s|] eqn:Hs.
  - rewrite (leave_run _ _ s Hs). destruct (voice s); [|done]. cbn.
    by apply list_lookup_insert_ne.
  - unfold Music._leave, bind, mbind, M_bind. by rewrite (on_none _ _ _ Hs).
Qed.

(** X1: a command of guild [g] leaves the registry entries of the other
    guilds and every session but the one of [g] exactly as they were. *)
Theorem commands_isolated (m : Music.t) (g : Z) (a : option Z)
    (c : Music.Command) :
  let m' := state_of (Music.invoke g a c m) in
  (∀ g', g' ≠ g →
     Music.voice_states m' !! g' = Music.voice_states m !! g') ∧
  (∀ r', (r' < length (Music.objects m))%nat →
     Music.voice_states m !! g ≠ Some r' →
     Music.objects m' !! r' = Music.objects m !! r').
Proof.
  cbn. destruct (invoke_state g a c m) as [->|(r & Hr & ->)]; [done|].
  set (ctx := {| Music.guild := g; Music.author := a;
                 Music.voice_state := r |}).
  destruct (Music.voice_states m !! g) as [r0|] eqn:Hg.
  - assert (Hm : state_of (Music.get_voice_state g m) = m)
      by by rewrite (get_hit _ _ _ Hg).
    rewrite (get_hit _ _ _ Hg) in Hr. cbn in Hr. simplify_eq.
    rewrite Hm. split.
    + intros g' Hne.
      destruct (callback_voice_states ctx c m) as [-> | ->]; [done|].
      by rewrite lookup_delete_ne.
    + intros r' _ Hne. apply callback_other. cbn. congruence.
  - set (m1 := Music.set_voice_states
                 (<[g:=length (Music.objects m)]> (Music.voice_states m))
                 (Music.set_objects
                    (Music.objects m ++ [VoiceState.__init__ g]) m)).
    assert (Hm : state_of (Music.get_voice_state g m) = m1)
      by by rewrite (get_miss _ _ Hg).
    rewrite (get_miss _ _ Hg) in Hr. cbn in Hr. injection Hr as Hr.
    rewrite Hm. split.
    + intros g' Hne.
      destruct (callback_voice_states ctx c m1) as [-> | ->]; cbn;
        rewrite ?lookup_delete_ne by done; by rewrite lookup_insert_ne.
    + intros r' Hlt _. rewrite callback_other by (cbn; lia). cbn.
      by rewrite lookup_app_l.
Qed.

Lemma commands_isolated_witness :
  ∃ m out,
    Music.run sample_events Music.__init__ = Some (m, out) ∧
    Music.objects (state_of (Music.invoke 2 (Some 9) Music.Stop m))
      !! 0%nat = Music.objects m !! 0%nat.
Proof.
  destruct (Music.run sample_events Music.__init__) as [[m out]|] eqn:H.
  - exists m, out. split; [reflexivity|].
    destruct (commands_isolated m 2 (Some 9) Music.Stop) as [_ H2].
    apply H2.
    + vm_compute in H. simplify_eq. cbn. lia.
    + vm_compute in H. simplify_eq. by vm_compute.
  - vm_compute in H. discriminate.
Defined.

(** ** After the idle timeout *)

(** X5: a session that the idle timeout tore down stays serviceable: its
    task waits for a song as before, and the next [play] in the guild
    connects the bot to the author's channel and queues the song, which
    the task takes and hands to the client at the session's volume. *)
Theorem recovers_after_teardown (m : Music.t) (g : Z) (r w : nat)
    (s : VoiceState.t) (ch : Z) (song : Song) :
  Music.voice_states m !! g = Some r → Music.objects m !! r = Some s →
  voice s = None → songs s = [] → audio_player s = InGet w →
  ∃ m' s',
    Music.run [Music.Invoke g (Some ch) (Music.Play (inr song));
               Music.Wake r] m =
      Some (m', [Sink (SConnect ch); Send ("Enqueued " +:+ title song);
                 Sink (SPlay song (_volume s)); SendEmbed song]) ∧
    Music.voice_states m' = Music.voice_states m ∧
    Music.objects m' !! r = Some s' ∧
    current s' = Some song ∧ songs s' = [] ∧
    voice s' = Some {| channel := ch; player := Rendering |} ∧
    audio_player s' = InNextWait.
Proof.
  intros Hg Hs Hv Hq Ht.
  pose proof (lookup_lt_Some _ _ _ Hs) as Hlt.
  set (s1 := set_songs [song]
               (set_voice (Some {| channel := ch; player := NoPlayer |}) s)).
  set (s2 := set_audio_player InNextWait
               (set_voice (Some {| channel := ch; player := Rendering |})
                  (set_current (Some song) (set_songs [] s1)))).
  assert (Hplay : Music._play (Some ch) (inr song) s =
            (Returned tt, s1,
             [Sink (SConnect ch); Send ("Enqueued " +:+ title song)])).
  { subst s1. destruct s; cbn in *; subst. reflexivity. }
  assert (Hres : resume s1 =
            Some (Returned tt, s2,
                  [Sink (SPlay song (_volume s)); SendEmbed song])).
  { subst s2 s1. destruct s; cbn in *; subst. reflexivity. }
  assert (Hinv : Music.invoke g (Some ch) (Music.Play (inr song)) m =
            (Returned tt,
             Music.set_objects (<[r := s1]> (Music.objects m)) m,
             [Sink (SConnect ch); Send ("Enqueued " +:+ title song)])).
  { rewrite (invoke_registered _ _ _ _ r Hg).
    - unfold try_except. cbn. by rewrite (on_some _ _ _ _ Hs), Hplay.
    - cbn. unfold Music.ensure_voice_state, bind, mbind, M_bind.
      by rewrite (voice_client_registered _ _ _ _ Hg Hs), Hv. }
  set (m1 := Music.set_objects (<[r := s1]> (Music.objects m)) m) in *.
  assert (Hstep1 : Music.step (Music.Invoke g (Some ch)
                                 (Music.Play (inr song))) m =
            Some (m1, [Sink (SConnect ch);
                       Send ("Enqueued " +:+ title song)])).
  { cbn. by rewrite Hinv. }
  assert (Hstep2 : Music.step (Music.Wake r) m1 =
            Some (Music.set_objects (<[r := s2]> (Music.objects m)) m,
                  [Sink (SPlay song (_volume s)); SendEmbed song])).
  { erewrite wake_step; [|by apply list_lookup_insert_eq|exact Hres].
    subst m1. cbn. rewrite list_insert_insert_eq, app_nil_r.
    by destruct m. }
  exists (Music.set_objects (<[r := s2]> (Music.objects m)) m), s2.
  split.
  - change (Music.run [Music.Invoke g (Some ch) (Music.Play (inr song));
                       Music.Wake r] m)
      with (x ← Music.step (Music.Invoke g (Some ch)
                              (Music.Play (inr song))) m;
            y ← (x' ← Music.step (Music.Wake r) x.1;
                 Some (x'.1, x'.2 ++ []));
            Some (y.1, x.2 ++ y.2)).
    rewrite Hstep1. cbn [mbind option_bind fst snd]. rewrite Hstep2.
    cbn. reflexivity.
  - split_and!; try done. cbn. by apply list_lookup_insert_eq.
Qed.

Lemma recovers_after_teardown_witness :
  ∃ m' s',
    Music.run [Music.Invoke 1 (Some 8) (Music.Play (inr song_b));
               Music.Wake 0] (world_of torn_down_session) =
      Some (m', [Sink (SConnect 8); Send "Enqueued B";
                 Sink (SPlay song_b 0.5%Q); SendEmbed song_b]) ∧
    Music.objects m' !! 0%nat = Some s' ∧ current s' = Some song_b.
Proof.
  destruct (recovers_after_teardown (world_of torn_down_session) 1 0 3
              torn_down_session 8 song_b)
    as (m' & s' & H1 & _ & H3 & H4 & _); [reflexivity..|].
  by exists m', s'.
Defined.

(** ** The queue listing *)








(** ** Named playlists *)

Section PlaylistProperties.

Context {Playlist : Type} (new : string → Playlist).
Context (add_song remove_song : string → Playlist → result Playlist).

(** X13: [new] refuses a name that is taken and leaves the playlists as
    they are; for a free name it stores a new playlist under it, and
    [delete] of that name afterwards gives back the playlists there were
    before. *)
Theorem new_playlist_fresh_or_refused (f : Music.File Playlist)
    (name : string) :
  let p := default ∅ f in
  (is_Some (p !! name) →
     Music._new_playlist Playlist new name f =
       (Returned tt, Some p, [Send "Playlist already exists."])) ∧
  (p !! name = None →
     Music._new_playlist Playlist new name f =
       (Returned tt, Some (<[name := new name]> p),
        [AddReaction CheckMark; Send "Playlist created."]) ∧
     Music._delete_playlist Playlist name (state_of (Music._new_playlist Playlist new name f)) =
       (Returned tt, Some p,
        [AddReaction CheckMark; Send "Playlist deleted."])).
Proof.
  cbn. split.
  - intros H. unfold Music._new_playlist, Music.load, Music.dump. munfold.
    cbn. by rewrite bool_decide_eq_true_2.
  - intros H.
    assert (Hnew : Music._new_playlist Playlist new name f =
              (Returned tt, Some (<[name := new name]> (default ∅ f)),
               [AddReaction CheckMark; Send "Playlist created."])).
    { unfold Music._new_playlist, Music.load, Music.dump. munfold. cbn.
      rewrite bool_decide_eq_false_2; [done|].
      rewrite H. by intros [? ?]. }
    split; [done|]. rewrite Hnew.
    unfold Music._delete_playlist, Music.load, Music.dump. munfold. cbn.
    rewrite lookup_insert_eq. cbn. by rewrite delete_insert_id.
Qed.

(** X14: [add], [remove] and [delete] on a name that has no playlist
    answer "Playlist does not exist." and change no playlist. *)
Theorem unknown_playlist_untouched (f : Music.File Playlist)
    (name search : string) :
  default ∅ f !! name = None →
  Music._add_to_playlist Playlist add_song name search f =
    (Returned tt, Some (default ∅ f), [Send "Playlist does not exist."]) ∧
  Music._remove_from_playlist Playlist remove_song name search f =
    (Returned tt, Some (default ∅ f), [Send "Playlist does not exist."]) ∧
  Music._delete_playlist Playlist name f =
    (Returned tt, Some (default ∅ f), [Send "Playlist does not exist."]).
Proof.
  intros H.
  unfold Music._add_to_playlist, Music._remove_from_playlist,
    Music.update_playlist, Music._delete_playlist, Music.load.
  munfold. cbn. by rewrite H.
Qed.

(** X15: whatever a playlist command does to the playlist it names, it
    leaves the file in place (creating it when it was not there) and
    every other playlist as it was, also when the method of the playlist
    raises. *)
Theorem other_playlists_untouched (f : Music.File Playlist)
    (name search other : string) (c : M (Music.File Playlist) unit) :
  c = Music._new_playlist Playlist new name ∨ c = Music._add_to_playlist Playlist add_song name search ∨
  c = Music._remove_from_playlist Playlist remove_song name search ∨ c = Music._delete_playlist Playlist name →
  other ≠ name →
  ∃ p', state_of (c f) = Some p' ∧ p' !! other = default ∅ f !! other.
Proof.
  intros Hc Hne.
  unfold Music._new_playlist, Music._add_to_playlist,
    Music._remove_from_playlist, Music.update_playlist,
    Music._delete_playlist, Music.load, Music.dump in Hc.
  destruct Hc as [-> | [-> | [-> | ->]]]; munfold; cbn.
  - case_bool_decide; cbn; eexists; split; try done.
    by rewrite lookup_insert_ne.
  - destruct (default ∅ f !! name) as [pl|]; cbn; [|by eexists].
    destruct (add_song search pl); cbn; eexists; split; try done.
    by rewrite lookup_insert_ne.
  - destruct (default ∅ f !! name) as [pl|]; cbn; [|by eexists].
    destruct (remove_song search pl); cbn; eexists; split; try done.
    by rewrite lookup_insert_ne.
  - destruct (default ∅ f !! name) as [pl|]; cbn; eexists; split; try done.
    by rewrite lookup_delete_ne.
Qed.

End PlaylistProperties.

Lemma new_playlist_fresh_or_refused_witness :
  state_of (Music._delete_playlist _ "mix"
              (state_of (Music._new_playlist _ sample_new "mix" sample_file)))
    = sample_file ∧
  Music._new_playlist _ sample_new "road" sample_file =
    (Returned tt, sample_file, [Send "Playlist already exists."]).
Proof.
  destruct (new_playlist_fresh_or_refused sample_new sample_file "mix")
    as [_ H1].
  destruct (new_playlist_fresh_or_refused sample_new sample_file "road")
    as [H2 _].
  split.
  - destruct H1 as [_ H]; [reflexivity|]. by rewrite H.
  - apply H2. by eexists.
Defined.

Lemma unknown_playlist_untouched_witness :
  Music._add_to_playlist _ sample_add_song "mix" "some song" sample_file =
    (Returned tt, sample_file, [Send "Playlist does not exist."]).
Proof.
  destruct (unknown_playlist_untouched sample_add_song sample_remove_song
              sample_file "mix" "some song") as [H _];
    [reflexivity|exact H].
Defined.

Lemma other_playlists_untouched_witness :
  ∃ p', state_of (Music._remove_from_playlist _ sample_remove_song
                    "road" "absent" sample_file) = Some p' ∧
        p' !! "gym" = Some ["song three"].
Proof.
  destruct (other_playlists_untouched sample_new sample_add_song
              sample_remove_song sample_file "road" "absent" "gym"
              (Music._remove_from_playlist _ sample_remove_song
                 "road" "absent"))
    as (p' & H1 & H2); [by right; right; left | done |].
  exists p'. split; [done|]. rewrite H2. reflexivity.
Defined.

(** ** Unloading the cog *)

Lemma stop_stopped s : stopped (state_of (stop s)).
Proof. rewrite stop_tears_down. by destruct s as [? ? [?|] ? ? ? ? ? ?]. Qed.

Lemma stop_keeps_stopped s : stopped s → state_of (stop s) = s.
Proof.
  intros [Hv Hq]. rewrite stop_tears_down, Hv. cbn.
  destruct s; cbn in *; by subst.
Qed.

(** The scheduled teardowns, run one after the other. *)
Lemma run_stops l m :
  Music.scheduled m = l →
  ∃ m' out,
    Music.run (replicate (length l) Music.RunStop) m = Some (m', out) ∧
    Music.voice_states m' = Music.voice_states m ∧
    ∀ r s, Music.objects m !! r = Some s →
           ∃ s', Music.objects m' !! r = Some s' ∧
                 (r ∈ l ∨ stopped s → stopped s').
Proof.
  revert m. induction l as [|r0 l IH]; intros m Hl.
  - exists m, []. split_and!; [done..|].
    intros r s Hs. exists s. split; [done|].
    intros [H|H]; [by apply elem_of_nil in H|done].
  - set (m1 := state_of (Music.on r0 stop (Music.set_scheduled l m))).
    destruct (on_voice_states r0 stop (Music.set_scheduled l m))
      as [Hvs Hsch]. fold m1 in Hvs, Hsch. cbn in Hvs, Hsch.
    destruct (IH m1 Hsch) as (m' & out & Hrun & Hvs' & Hall).
    exists m', (output_of (Music.on r0 stop (Music.set_scheduled l m)) ++ out).
    split_and!.
    + cbn. rewrite Hl. cbn. fold m1. by rewrite Hrun.
    + by rewrite Hvs'.
    + intros r s Hs.
      assert (H1 : ∃ s1, Music.objects m1 !! r = Some s1 ∧
                         (r = r0 ∨ stopped s → stopped s1)).
      { subst m1.
        destruct (Music.objects m !! r0) as [s0|] eqn:Hs0.
        - rewrite (on_some _ _ _ s0) by done. cbn.
          destruct (decide (r = r0)) as [->|Hne].
          + rewrite list_lookup_insert_eq by by eapply lookup_lt_Some.
            eexists. split; [done|]. intros _. apply stop_stopped.
          + rewrite list_lookup_insert_ne by done. exists s.
            split; [done|]. by intros [?|?].
        - rewrite on_none by done. exists s. split; [done|].
          intros [->|?]; [congruence|done]. }
      destruct H1 as (s1 & Hs1 & Hst1).
      destruct (Hall r s1 Hs1) as (s' & Hs' & Hst').
      exists s'. split; [done|].
      intros [Hin|Hst].
      * apply elem_of_cons in Hin as [->|Hin]; auto.
      * auto.
Qed.

(** X17: when the cog is unloaded and the teardowns it schedules have
    run, every registered session is without voice client and has an
    empty queue; the registry itself is left as it was. *)
Theorem unload_tears_down_all (m : Music.t) :
  Music.scheduled m = [] → registry_wf m →
  ∃ m' out,
    Music.run (unload_events m) m = Some (m', out) ∧
    Music.voice_states m' = Music.voice_states m ∧
    ∀ g r, Music.voice_states m !! g = Some r →
           ∃ s', Music.objects m' !! r = Some s' ∧ stopped s'.
Proof.
  intros Hsch Hwf.
  set (rs := (map_to_list (Music.voice_states m)).*2).
  set (m0 := Music.set_scheduled rs m).
  destruct (run_stops rs m0 eq_refl) as (m' & out & Hrun & Hvs & Hall).
  exists m', (((λ _, CreateTaskStop) <$> rs) ++ out). split_and!.
  - unfold unload_events. cbn. rewrite Hsch. cbn. fold rs m0.
    replace (size (Music.voice_states m)) with (length rs).
    + by rewrite Hrun.
    + subst rs. by rewrite length_fmap, length_map_to_list.
  - done.
  - intros g r Hg. destruct (Hwf g r Hg) as (s & Hs & _).
    destruct (Hall r s Hs) as (s' & Hs' & Hst).
    exists s'. split; [done|]. apply Hst. left.
    subst rs. apply list_elem_of_fmap. exists (g, r). split; [done|].
    by apply elem_of_map_to_list.
Qed.

Lemma unload_tears_down_all_witness :
  ∃ m' out,
    Music.run (unload_events (world_of playing_session))
      (world_of playing_session) = Some (m', out) ∧
    ∃ s', Music.objects m' !! 0%nat = Some s' ∧ stopped s'.
Proof.
  destruct (unload_tears_down_all (world_of playing_session))
    as (m' & out & H1 & _ & H3).
  - reflexivity.
  - intros g r Hg. cbn in Hg.
    apply lookup_singleton_Some in Hg as [<- <-].
    by exists playing_session.
  - exists m', out. split; [done|]. apply (H3 1). reflexivity.
Defined.

(** ** Stop, skip and the loop flag *)

(** X18: [stop] empties the queue and stops the client, but it does not
    clear the loop flag: when the client then reports the end of the
    track, a task with the flag off comes to rest waiting for a song,
    while a task with the flag set starts the current song again. *)
Theorem stop_then_next_iteration (s : VoiceState.t) (c : Song) :
  audio_player s = InNextWait → is_playing s = true → current s = Some c →
  let s1 := state_of (Music._stop s) in
  (_loop s = false →
     ∃ s2, resumes 2 (state_of (completion None s1)) = Some (s2, []) ∧
           audio_player s2 = InGet 0 ∧ songs s2 = []) ∧
  (_loop s = true →
     ∃ s2, resumes 2 (state_of (completion None s1)) =
             Some (s2, [Sink (SPlay c (_volume s)); SendEmbed c]) ∧
           audio_player s2 = InNextWait ∧ current s2 = Some c).
Proof.
  intros Ht Hp Hc. cbn. unfold Music._stop, voice_stop, the_voice. munfold.
  session_cases s; simplify_eq; split; intros ->; by eexists.
Qed.

Lemma stop_then_next_iteration_witness :
  ∃ s2,
    resumes 2 (state_of (completion None
                           (state_of (Music._stop
                                        (set_loop true playing_session))))) =
      Some (s2, [Sink (SPlay song_a 0.5%Q); SendEmbed song_a]).
Proof.
  destruct (stop_then_next_iteration (set_loop true playing_session) song_a)
    as [_ H]; [reflexivity..|].
  destruct H as (s2 & H & _); [reflexivity|]. by exists s2.
Defined.

(** ** Pause and resume without a client *)

(** X19: on a session without voice client, [pause] and [resume] do not
    answer that nothing is playing: evaluating their condition raises,
    the session is untouched, and through the cog the room is told that an
    error occurred. *)
Theorem pause_resume_without_client (m : Music.t) (g : Z) (a : option Z)
    (r : nat) (s : VoiceState.t) :
  Music.voice_states m !! g = Some r → Music.objects m !! r = Some s →
  voice s = None →
  Music._pause s = (Raised AttributeError, s, []) ∧
  Music._resume s = (Raised AttributeError, s, []) ∧
  Music.invoke g a Music.Pause m =
    (Returned tt, m, output_of (Music.cog_command_error AttributeError m)) ∧
  Music.invoke g a Music.Resume m =
    (Returned tt, m, output_of (Music.cog_command_error AttributeError m)).
Proof.
  intros Hg Hs Hv. destruct (pause_without_voice s Hv) as [Hp Hr].
  split_and!; [done|done| |].
  - rewrite (invoke_registered _ _ _ _ r Hg) by done.
    unfold try_except. cbn. by rewrite (on_same _ _ m s _ _ Hs Hp).
  - rewrite (invoke_registered _ _ _ _ r Hg) by done.
    unfold try_except. cbn. by rewrite (on_same _ _ m s _ _ Hs Hr).
Qed.

Lemma pause_resume_without_client_witness :
  Music.invoke 1 None Music.Pause (world_of fresh_session) =
    (Returned tt, world_of fresh_session,
     output_of (Music.cog_command_error AttributeError
                  (world_of fresh_session))).
Proof.
  destruct (pause_resume_without_client (world_of fresh_session) 1 None 0
              fresh_session) as (_ & _ & H & _); [reflexivity..|exact H].
Defined.

(** ** Witnesses of the invariants *)

Lemma run_keeps_blocked_witness :
  ∃ m' out s',
    Music.run no_completion_events (world_of playing_session) =
      Some (m', out) ∧
    Music.objects m' !! 0%nat = Some s' ∧ blocked s' ∧
    Music.step (Music.Wake 0) m' = None.
Proof.
  destruct (Music.run no_completion_events (world_of playing_session))
    as [[m' out]|] eqn:Hrun.
  - destruct (run_keeps_blocked no_completion_events
                (world_of playing_session) m' out 0 playing_session)
      as (s' & H1 & H2 & H3).
    + repeat constructor; discriminate.
    + exact Hrun.
    + reflexivity.
    + split; reflexivity.
    + by exists m', out, s'.
  - vm_compute in Hrun. discriminate.
Defined.

Lemma skip_votes_always_empty_witness :
  ∃ m out s,
    Music.run sample_events Music.__init__ = Some (m, out) ∧
    Music.objects m !! 1%nat = Some s ∧ skip_votes s = ∅.
Proof.
  destruct (Music.run sample_events Music.__init__) as [[m out]|] eqn:Hrun.
  - destruct (Music.objects m !! 1%nat) as [s|] eqn:Hs.
    + exists m, out, s. split_and!; [done..|].
      apply (skip_votes_always_empty m 1 s); [by exists sample_events, out|done].
    + vm_compute in Hrun. injection Hrun as <- <-. vm_compute in Hs.
      discriminate.
  - vm_compute in Hrun. discriminate.
Defined.
